(** * untar-stream: a shallow embedding of the USTAR decoder

    The repository holds three revisions of the decoder:
    - [Sequential]  (src/index.js, first module): the reader pulls chunks
      from a chunked iterator, fields are decoded by [decodeString] and
      [decodeOctal];
    - [SequentialTD] (src/index.js, second module): the same reader, but the
      fields are decoded with a [TextDecoder];
    - [Seekable] (the ReadSeeker revision): the reader owns a 512-byte
      buffer and a source with [read] and [seek].

    The definitions follow the JavaScript text function by function. *)

From Stdlib Require Import ZArith List String Ascii Strings.Byte Bool Lia.
From stdpp Require Import base option list strings gmap pretty.

Local Open Scope string_scope.
Local Open Scope list_scope.
Local Open Scope Z_scope.

(** ** JavaScript values *)

(** The numbers of the program are either [NaN] or integers: every number is
    made by [parseInt], by a byte value, by a length, or by [+], [-] and
    [Math.ceil (x / 512) * 512] on those.  Header fields have at most 12
    characters, so the integers stay far below 2^53 and the floating-point
    representation is exact; [-0] is identified with [0] (they are [===]
    and name the same property). *)
Inductive number : Type :=
  | NaN
  | Num (z : Z).

Definition num_add (a b : number) : number :=
  match a, b with
  | Num x, Num y => Num (x + y)
  | _, _ => NaN
  end.

Definition num_sub (a b : number) : number :=
  match a, b with
  | Num x, Num y => Num (x - y)
  | _, _ => NaN
  end.

(** [a <= b], [a < b], [a >= b]: false as soon as one side is [NaN]. *)
Definition num_le (a b : number) : bool :=
  match a, b with
  | Num x, Num y => x <=? y
  | _, _ => false
  end.

Definition num_lt (a b : number) : bool :=
  match a, b with
  | Num x, Num y => x <? y
  | _, _ => false
  end.

Definition num_ge (a b : number) : bool := num_le b a.

(** [a === b] on numbers: [NaN] is different from everything. *)
Definition num_seq (a b : number) : bool :=
  match a, b with
  | Num x, Num y => x =? y
  | _, _ => false
  end.

(** [Math.ceil (x / RECORD_SIZE) * RECORD_SIZE]. *)
Definition RECORD_SIZE : Z := 512.
Definition INITIAL_CHECKSUM : Z := 8 * 32.

Definition ceil_div (x d : Z) : Z := - ((- x) / d).

Definition ceil_record (x : number) : number :=
  match x with
  | NaN => NaN
  | Num z => Num (ceil_div z RECORD_SIZE * RECORD_SIZE)
  end.

(** [String (x)] for a number, as used for a property key. *)
Definition number_to_string (x : number) : string :=
  match x with
  | NaN => "NaN"
  | Num z => pretty z
  end.

(** The exceptions the decoder can raise: [new Error (message)], and the two
    run-time errors of the language that the code can run into. *)
Inductive exn : Type :=
  | Error (message : string)
  | ReferenceError (ident : string)
  | TypeError (message : string).

Inductive result (A : Type) : Type :=
  | Ok (a : A)
  | Throw (e : exn).
Arguments Ok {A} a.
Arguments Throw {A} e.

Definition ChecksumError : exn := Error "Checksum error".
Definition UnsupportedFormatError (magic : string) : exn :=
  Error ("Unsupported archive format: " +:+ magic).

(** ** Typed arrays *)

Abbreviation Uint8Array := (list byte) (only parsing).

Definition byte_val (b : byte) : Z := Z.of_N (Byte.to_N b).

(** [arr.subarray (start, stop)], clamped to the array like the platform
    does. *)
Definition subarray (arr : Uint8Array) (start stop : nat) : Uint8Array :=
  take (stop - start) (drop start arr).

(** [block[i]] read as a number operand: [undefined] out of range, which
    turns a sum into [NaN]. *)
Definition index (block : Uint8Array) (i : nat) : number :=
  match block !! i with
  | Some b => Num (byte_val b)
  | None => NaN
  end.

(** [new Uint8Array (n)]. *)
Definition new_Uint8Array (n : nat) : Uint8Array := replicate n x00.

(** [p.set (block, 0)] for a block that fits in [p]. *)
Definition set_at0 (p block : Uint8Array) : Uint8Array :=
  block ++ drop (length block) p.

(** ** parseInt *)

(** Code units below 256 that [parseInt] skips as white space. *)
Definition is_white_space (c : ascii) : bool :=
  let n := N_of_ascii c in
  ((9 <=? n) && (n <=? 13) || (n =? 32) || (n =? 160))%N.

Definition digit_value (c : ascii) : option Z :=
  let n := Z.of_N (N_of_ascii c) in
  if (48 <=? n) && (n <=? 57) then Some (n - 48)
  else if (97 <=? n) && (n <=? 122) then Some (n - 87)
  else if (65 <=? n) && (n <=? 90) then Some (n - 55)
  else None.

Fixpoint skip_white_space (s : string) : string :=
  match s with
  | String c r => if is_white_space c then skip_white_space r else s
  | EmptyString => s
  end.

(** The value of the longest prefix of [s] made of digits of the radix,
    [acc] being the value and [seen] the presence of the digits before. *)
Fixpoint parse_digits (radix : Z) (acc : Z) (seen : bool) (s : string) : number :=
  match s with
  | String c r =>
      match digit_value c with
      | Some d =>
          if d <? radix then parse_digits radix (acc * radix + d) true r
          else if seen then Num acc else NaN
      | None => if seen then Num acc else NaN
      end
  | EmptyString => if seen then Num acc else NaN
  end.

Definition strip_sign (s : string) : Z * string :=
  match s with
  | String "-" r => (-1, r)
  | String "+" r => (1, r)
  | _ => (1, s)
  end.

Definition strip_hex_prefix (s : string) : option string :=
  match s with
  | String "0" (String "x" r) => Some r
  | String "0" (String "X" r) => Some r
  | _ => None
  end.

Definition num_scale (sign : Z) (x : number) : number :=
  match x with
  | NaN => NaN
  | Num z => Num (sign * z)
  end.

Definition parseInt (s : string) (radix : Z) : number :=
  let '(sign, s1) := strip_sign (skip_white_space s) in
  if radix =? 0 then
    match strip_hex_prefix s1 with
    | Some s2 => num_scale sign (parse_digits 16 0 false s2)
    | None => num_scale sign (parse_digits 10 0 false s1)
    end
  else if (radix <? 2) || (36 <? radix) then NaN
  else if radix =? 16 then
    match strip_hex_prefix s1 with
    | Some s2 => num_scale sign (parse_digits 16 0 false s2)
    | None => num_scale sign (parse_digits 16 0 false s1)
    end
  else num_scale sign (parse_digits radix 0 false s1).

(** ** Shared helpers of the first and the ReadSeeker revision *)

(** [String.fromCharCode (code)] for a byte. *)
Definition fromCharCode (code : byte) : ascii := ascii_of_byte code.

Fixpoint decodeString (arr : Uint8Array) : string :=
  match arr with
  | [] => ""
  | code :: rest =>
      if Byte.eqb code x00 then ""
      else String (fromCharCode code) (decodeString rest)
  end.

(** A string is truthy when it is not empty. *)
Definition truthy (s : string) : bool :=
  match s with
  | EmptyString => false
  | String _ _ => true
  end.

Definition decodeOctal (arr : Uint8Array) : number :=
  let res := decodeString arr in
  if truthy res then parseInt res 8 else Num 0.

(** [FILE_TYPES]: an object, so its keys are the strings of the digits. *)
Definition FILE_TYPES : gmap string string :=
  list_to_map
    [ ("0", "file"); ("1", "link"); ("2", "symlink");
      ("3", "character-device"); ("4", "block-device"); ("5", "directory");
      ("6", "fifo"); ("7", "contiguous-file") ].

(** [FILE_TYPES[x]]: [None] is [undefined]. *)
Definition FILE_TYPES_at (x : number) : option string :=
  FILE_TYPES !! number_to_string x.

(** [s.indexOf (needle)], [-1] when the needle does not occur. *)
Definition indexOf (s needle : string) : Z :=
  match String.index 0 needle s with
  | Some n => Z.of_nat n
  | None => -1
  end.

Definition bytes_of (s : string) : Uint8Array := list_byte_of_string s.

(** The byte source of the sequential revisions: [chunked (stream)], an
    iterator of the package [@intrnl/chunked-uint8-iterator].  It is taken as
    the list of the chunks it still has to yield; [next ()] gives the first
    one, and a [null] value once the list is empty. *)
Abbreviation ChunkReader := (list (list byte)) (only parsing).

Definition chunk_next (reader : ChunkReader) : option Uint8Array * ChunkReader :=
  match reader with
  | [] => (None, [])
  | values :: rest => (Some values, rest)
  end.

(** What an iterator's [next ()] resolves to. *)
Record IterResult : Type := mkIterResult {
  done : bool;
  value : option Uint8Array;
}.

(** [new Uint8Array (n)] and [subarray (0, n)] take an index: [NaN] counts
    as 0. *)
Definition to_index (x : number) : nat :=
  match x with
  | NaN => 0%nat
  | Num z => Z.to_nat z
  end.

(** ** The first revision: a chunked iterator, [decodeString] fields *)

Module Sequential.

Definition USTAR_FIELDS : list (option string * nat) :=
  [ (Some "name", 100); (Some "mode", 8); (Some "uid", 8); (Some "gid", 8);
    (Some "size", 12); (Some "mtime", 12); (Some "checksum", 8);
    (Some "type", 1); (Some "linkName", 100); (Some "ustar", 8);
    (Some "owner", 32); (Some "group", 32); (Some "majorNumber", 8);
    (Some "minorNumber", 8); (Some "prefix", 155); (None, 12) ]%nat.

(** A property key: [null] names the property ["null"]. *)
Definition key (label : option string) : string :=
  match label with
  | Some l => l
  | None => "null"
  end.

Definition _parseHeader (block : Uint8Array) : gmap string Uint8Array :=
  snd (fold_left
         (fun '(offset, header) '(label, len) =>
            ((offset + len)%nat,
             <[key label := subarray block offset (offset + len)]> header))
         USTAR_FIELDS (0%nat, ∅)).

(** [header.label]; every label read below is in [USTAR_FIELDS], so the
    property is always there. *)
Definition prop (header : gmap string Uint8Array) (label : string) : Uint8Array :=
  default [] (header !! label).

Definition _getChecksum (block : Uint8Array) : number :=
  fold_left
    (fun sum i =>
       if (148 <=? i)%nat && (i <? 156)%nat then sum
       else num_add sum (index block i))
    (seq 0 512) (Num INITIAL_CHECKSUM).

Record TarEntry : Type := mkTarEntry {
  name : string;
  mode : number;
  uid : number;
  gid : number;
  size : number;
  mtime : number;
  type : option string;
  linkName : string;
  owner : string;
  group : string;
  majorNumber : number;
  minorNumber : number;
  entrySize : number;
  _consumed : bool;
  _read : number;
}.

Definition set_consumed (e : TarEntry) (c : bool) : TarEntry :=
  mkTarEntry (name e) (mode e) (uid e) (gid e) (size e) (mtime e) (type e)
    (linkName e) (owner e) (group e) (majorNumber e) (minorNumber e)
    (entrySize e) c (_read e).

Definition set_read (e : TarEntry) (r : number) : TarEntry :=
  mkTarEntry (name e) (mode e) (uid e) (gid e) (size e) (mtime e) (type e)
    (linkName e) (owner e) (group e) (majorNumber e) (minorNumber e)
    (entrySize e) (_consumed e) r.

(** The constructor: [_parseMetadata], then [entrySize], [_consumed] and
    [_read]. *)
Definition new_TarEntry (header : gmap string Uint8Array) : TarEntry :=
  let _prefix := decodeString (prop header "prefix") in
  let _name := decodeString (prop header "name") in
  let size := decodeOctal (prop header "size") in
  {| name := if (0 <? String.length _prefix)%nat
             then _prefix +:+ "/" +:+ _name else _name;
     mode := decodeOctal (prop header "mode");
     uid := decodeOctal (prop header "uid");
     gid := decodeOctal (prop header "gid");
     size := size;
     mtime := decodeOctal (prop header "mtime");
     type := FILE_TYPES_at (decodeOctal (prop header "type"));
     linkName := decodeString (prop header "linkName");
     owner := decodeString (prop header "owner");
     group := decodeString (prop header "group");
     majorNumber := decodeOctal (prop header "majorNumber");
     minorNumber := decodeOctal (prop header "minorNumber");
     entrySize := ceil_record size;
     _consumed := false;
     _read := Num 0 |}.

(** [getIterator ().next ()].  The length of the chunk is read before the
    test for [null], so an exhausted source makes the call throw; the two
    tests for [null] that follow are never reached with [null]. *)
Definition next (entry : TarEntry) (reader : ChunkReader)
  : result IterResult * TarEntry * ChunkReader :=
  let entryBytesLeft := num_sub (entrySize entry) (_read entry) in
  let bytesLeft := num_sub (size entry) (_read entry) in
  if num_le entryBytesLeft (Num 0) then
    (Ok (mkIterResult true None), set_consumed entry true, reader)
  else
    match chunk_next reader with
    | (None, reader') =>
        (Throw (TypeError "Cannot read properties of null"), entry, reader')
    | (Some values, reader') =>
        let length := Num (Z.of_nat (length values)) in
        if num_le bytesLeft (Num 0) then
          (Ok (mkIterResult true None), entry, reader')
        else
          let buf := if num_lt bytesLeft length
                     then subarray values 0 (to_index bytesLeft)
                     else values in
          (Ok (mkIterResult false (Some buf)),
           set_read entry (num_add (_read entry) length), reader')
    end.

(** [discard ()]: [while (!this._consumed) await iterator.next ()].  The
    loop is run with fuel; [None] means the fuel ran out. *)
Fixpoint discard_loop (fuel : nat) (entry : TarEntry) (reader : ChunkReader)
  : option (result unit * TarEntry * ChunkReader) :=
  if _consumed entry then Some (Ok tt, entry, reader)
  else
    match fuel with
    | O => None
    | S fuel' =>
        match next entry reader with
        | (Ok _, entry', reader') => discard_loop fuel' entry' reader'
        | (Throw e, entry', reader') => Some (Throw e, entry', reader')
        end
    end.

(** Every turn of the loop that does not end it takes a chunk, so the
    number of the chunks left, and one more turn, is fuel enough. *)
Definition discard (entry : TarEntry) (reader : ChunkReader)
  : option (result unit * TarEntry * ChunkReader) :=
  discard_loop (S (length reader)) entry reader.

(** The checks of [_getHeader] on the block it has read. *)
Definition check_block (block : Uint8Array)
  : result (option (gmap string Uint8Array)) :=
  let header := _parseHeader block in
  let blocksum := _getChecksum block in
  let magic := decodeString (prop header "ustar") in
  let checksum := decodeString (prop header "checksum") in
  if negb (num_seq (parseInt checksum 8) blocksum) then
    if num_seq blocksum (Num INITIAL_CHECKSUM) then Ok None
    else Throw ChecksumError
  else if negb (indexOf magic "ustar" =? 0) then
    Throw (UnsupportedFormatError magic)
  else Ok (Some header).

Definition _getHeader (reader : ChunkReader)
  : result (option (gmap string Uint8Array)) * ChunkReader :=
  match chunk_next reader with
  | (None, reader') => (Ok None, reader')
  | (Some block, reader') => (check_block block, reader')
  end.

(** The reader: [this.entry] and [this.reader].  The entry handed to the
    caller is the object in [this.entry], so what the caller reads from it
    is seen by the next [extract ()]. *)
Record Untar : Type := mkUntar {
  entry : option TarEntry;
  reader : ChunkReader;
}.

Definition new_Untar (stream : ChunkReader) : Untar := mkUntar None stream.

(** The rest of [extract ()], once the body of the last entry is passed. *)
Definition extract_header (entry0 : option TarEntry) (reader0 : ChunkReader)
  : result (option TarEntry) * Untar :=
  match _getHeader reader0 with
  | (Throw e, reader1) => (Throw e, mkUntar entry0 reader1)
  | (Ok None, reader1) => (Ok None, mkUntar entry0 reader1)
  | (Ok (Some header), reader1) =>
      let entry1 := new_TarEntry header in
      (Ok (Some entry1), mkUntar (Some entry1) reader1)
  end.

(** The start of [extract ()]:
    [if (this.entry && !this.entry._consumed) await this.entry.discard ()].
    [None] only if the loop of [discard] ran out of fuel. *)
Definition pass_body (entry0 : option TarEntry) (reader0 : ChunkReader)
  : option (result unit * option TarEntry * ChunkReader) :=
  match entry0 with
  | Some e =>
      if negb (_consumed e) then
        match discard e reader0 with
        | None => None
        | Some (r, e', reader') => Some (r, Some e', reader')
        end
      else Some (Ok tt, entry0, reader0)
  | None => Some (Ok tt, entry0, reader0)
  end.

Definition extract (u : Untar) : option (result (option TarEntry) * Untar) :=
  match pass_body (entry u) (reader u) with
  | None => None
  | Some (Throw x, entry', reader') => Some (Throw x, mkUntar entry' reader')
  | Some (Ok _, entry', reader') => Some (extract_header entry' reader')
  end.

(** [for await (let values of entry)]: the loop pulls the iterator of the
    entry until it is done, and the caller gets the chunks in order.  The loop
    is run with fuel; every turn that goes on takes a chunk of the source. *)
Fixpoint drain_loop (fuel : nat) (entry : TarEntry) (reader : ChunkReader)
  : option (list Uint8Array * result unit * TarEntry * ChunkReader) :=
  match fuel with
  | O => None
  | S fuel' =>
      match next entry reader with
      | (Throw e, entry', reader') => Some ([], Throw e, entry', reader')
      | (Ok it, entry', reader') =>
          match done it, value it with
          | false, Some buf =>
              match drain_loop fuel' entry' reader' with
              | Some (bufs, r, entry'', reader'') =>
                  Some (buf :: bufs, r, entry'', reader'')
              | None => None
              end
          | _, _ => Some ([], Ok tt, entry', reader')
          end
      end
  end.

Definition drain (entry : TarEntry) (reader : ChunkReader)
  : option (list Uint8Array * result unit * TarEntry * ChunkReader) :=
  drain_loop (S (length reader)) entry reader.

(** [for await (let entry of untar)] with a body that reads nothing of the
    entries: the generator calls [extract ()] until it gives [null], and
    yields the entries in order.  Every entry takes the chunk of its header,
    so the loop has fuel for one turn more than the source has chunks. *)
Fixpoint entries_loop (fuel : nat) (u : Untar)
  : option (list TarEntry * result unit * Untar) :=
  match fuel with
  | O => None
  | S fuel' =>
      match extract u with
      | None => None
      | Some (Throw e, u') => Some ([], Throw e, u')
      | Some (Ok None, u') => Some ([], Ok tt, u')
      | Some (Ok (Some entry1), u') =>
          match entries_loop fuel' u' with
          | Some (es, r, u'') => Some (entry1 :: es, r, u'')
          | None => None
          end
      end
  end.

Definition entries (u : Untar) : option (list TarEntry * result unit * Untar) :=
  entries_loop (S (length (reader u))) u.

End Sequential.

(** ** The second revision: the same reader, fields decoded by a TextDecoder

    [extract], [_parseHeader], [_getChecksum] and the iterator of the entry
    are, letter for letter, those of the first revision; what differs is
    defined here. *)

Module SequentialTD.

(** [decoder.decode (arr)] with [decoder = new TextDecoder ()].  On bytes
    below 128 UTF-8 is the identity; arrays with other bytes are left out
    of the model ([None]). *)
Definition decoder_decode (arr : Uint8Array) : option string :=
  if forallb (fun b => byte_val b <? 128) arr
  then Some (string_of_list_byte arr) else None.

(** [trim]: the array up to its first zero byte. *)
Fixpoint trim (arr : Uint8Array) : Uint8Array :=
  match arr with
  | [] => []
  | b :: rest => if Byte.eqb b x00 then [] else b :: trim rest
  end.

Record TarEntry : Type := mkTarEntry {
  name : string;
  mode : number;
  uid : number;
  gid : number;
  size : number;
  mtime : number;
  type : option string;
  linkName : string;
  owner : option string;
  group : option string;
  majorNumber : number;
  minorNumber : number;
  entrySize : number;
  _consumed : bool;
  _read : number;
}.

(** The checks of [_getHeader] on the block it has read. *)
Definition check_block (block : Uint8Array)
  : option (result (option (gmap string Uint8Array))) :=
  let header := Sequential._parseHeader block in
  let blocksum := Sequential._getChecksum block in
  magic ← decoder_decode (Sequential.prop header "ustar");
  checksum ← decoder_decode (Sequential.prop header "checksum");
  Some (if negb (num_seq (parseInt checksum 8) blocksum) then
          if num_seq blocksum (Num INITIAL_CHECKSUM) then Ok None
          else Throw ChecksumError
        else if negb (indexOf magic "ustar" =? 0) then
          Throw (UnsupportedFormatError magic)
        else Ok (Some header)).

(** A numeric field of [_parseMetadata]:
    [parseInt (decoder.decode (header.field), 8)]. *)
Definition octal_field (arr : Uint8Array) : option number :=
  text ← decoder_decode arr; Some (parseInt text 8).

Definition new_TarEntry (header : gmap string Uint8Array) : option TarEntry :=
  let prop := Sequential.prop header in
  let _prefix := trim (prop "prefix") in
  let _owner := trim (prop "owner") in
  let _group := trim (prop "group") in
  _name ← decoder_decode (trim (prop "name"));
  name ← (if (0 <? length _prefix)%nat
          then p ← decoder_decode _prefix; Some (p +:+ "/" +:+ _name)
          else Some _name);
  mode ← octal_field (prop "mode");
  uid ← octal_field (prop "uid");
  gid ← octal_field (prop "gid");
  size ← octal_field (prop "size");
  mtime ← octal_field (prop "mtime");
  type ← octal_field (prop "type");
  linkName ← decoder_decode (trim (prop "linkName"));
  owner ← (if (0 <? length _owner)%nat
           then Some <$> decoder_decode _owner else Some None);
  group ← (if (0 <? length _group)%nat
           then Some <$> decoder_decode _group else Some None);
  majorNumber ← octal_field (prop "majorNumber");
  minorNumber ← octal_field (prop "minorNumber");
  Some {| name := name; mode := mode; uid := uid; gid := gid; size := size;
          mtime := mtime; type := FILE_TYPES_at type; linkName := linkName;
          owner := owner; group := group; majorNumber := majorNumber;
          minorNumber := minorNumber; entrySize := ceil_record size;
          _consumed := false; _read := Num 0 |}.

End SequentialTD.

(** ** The ReadSeeker revision *)

(** The [ReadSeeker] of the typedef.  [rs_read r n] is [read (p)] for a
    buffer of [n] bytes: the bytes it stores at the start of [p], whose
    number is what the call resolves to, or [None] for [null].  [rs_seek] is
    [seek (offset, whence)].  [rs_position] is the cursor of the source,
    which the decoder never asks for. *)
Class ReadSeeker (R : Type) : Type := {
  rs_read : R → nat → option Uint8Array * R;
  rs_seek : R → number → Z → R;
  rs_position : R → Z;
}.

Definition SEEK_MODE_CURRENT : Z := 1.

(** What a source owes to its cursor: a read stores at most the bytes asked
    for and moves the cursor past them, a relative seek moves it by the
    offset. *)
Class ReadSeekerLaws (R : Type) `{ReadSeeker R} : Prop := {
  read_at_most : ∀ r n bs r',
    rs_read r n = (Some bs, r') → (length bs ≤ n)%nat;
  read_position : ∀ r n bs r',
    rs_read r n = (Some bs, r') →
    rs_position r' = rs_position r + Z.of_nat (length bs);
  read_null_position : ∀ r n r',
    rs_read r n = (None, r') → rs_position r' = rs_position r;
  seek_position : ∀ r z,
    rs_position (rs_seek r (Num z) SEEK_MODE_CURRENT) = rs_position r + z;
}.

(** The buffer [p] after a read that stored [res] at its start. *)
Definition stored (p : Uint8Array) (res : option Uint8Array) : Uint8Array :=
  match res with
  | Some bs => set_at0 p bs
  | None => p
  end.

(** The number a read resolves to. *)
Definition count (res : option Uint8Array) : option nat := length <$> res.

Module Seekable.

Definition USTAR_FIELDS : list (option string * nat) :=
  [ (Some "name", 100); (Some "mode", 8); (Some "uid", 8); (Some "gid", 8);
    (Some "size", 12); (Some "mtime", 12); (None, 8);
    (Some "type", 1); (Some "linkName", 100); (None, 8);
    (Some "owner", 32); (Some "group", 32); (Some "majorNumber", 8);
    (Some "minorNumber", 8); (Some "prefix", 155); (None, 12) ]%nat.

Definition _parseHeader (block : Uint8Array) : gmap string Uint8Array :=
  snd (fold_left
         (fun '(offset, header) '(label, len) =>
            ((offset + len)%nat,
             match label with
             | Some l => <[l := subarray block offset (offset + len)]> header
             | None => header
             end))
         USTAR_FIELDS (0%nat, ∅)).

Definition prop (header : gmap string Uint8Array) (label : string) : Uint8Array :=
  default [] (header !! label).

Definition _getChecksum (block : Uint8Array) : number :=
  fold_left
    (fun sum i =>
       if (148 <=? i)%nat && (i <? 156)%nat then sum
       else num_add sum (index block i))
    (seq 0 512) (Num INITIAL_CHECKSUM).

Record TarEntry : Type := mkTarEntry {
  name : string;
  mode : number;
  uid : number;
  gid : number;
  size : number;
  mtime : number;
  type : option string;
  linkName : string;
  owner : string;
  group : string;
  majorNumber : number;
  minorNumber : number;
  entrySize : number;
  _read : number;
}.

Definition set_read (e : TarEntry) (r : number) : TarEntry :=
  mkTarEntry (name e) (mode e) (uid e) (gid e) (size e) (mtime e) (type e)
    (linkName e) (owner e) (group e) (majorNumber e) (minorNumber e)
    (entrySize e) r.

(** The constructor: [_parseMetadata], which also sets [entrySize], then
    [_read]. *)
Definition new_TarEntry (header : gmap string Uint8Array) : TarEntry :=
  let _prefix := decodeString (prop header "prefix") in
  let _name := decodeString (prop header "name") in
  let size := decodeOctal (prop header "size") in
  {| name := if (0 <? String.length _prefix)%nat
             then _prefix +:+ "/" +:+ _name else _name;
     mode := decodeOctal (prop header "mode");
     uid := decodeOctal (prop header "uid");
     gid := decodeOctal (prop header "gid");
     size := size;
     mtime := decodeOctal (prop header "mtime");
     type := FILE_TYPES_at (decodeOctal (prop header "type"));
     linkName := decodeString (prop header "linkName");
     owner := decodeString (prop header "owner");
     group := decodeString (prop header "group");
     majorNumber := decodeOctal (prop header "majorNumber");
     minorNumber := decodeOctal (prop header "minorNumber");
     entrySize := ceil_record size;
     _read := Num 0 |}.

(** The checks of [_getHeader] on the buffer it has read into.  The
    template of the second error names a variable [magic] that this
    revision does not declare. *)
Definition check_block (chunk : Uint8Array)
  : result (option (gmap string Uint8Array)) :=
  let blocksum := _getChecksum chunk in
  if negb (num_seq (parseInt (decodeString (subarray chunk 148 156)) 8) blocksum) then
    if num_seq blocksum (Num INITIAL_CHECKSUM) then Ok None
    else Throw ChecksumError
  else if negb (indexOf (decodeString (subarray chunk 257 263)) "ustar" =? 0) then
    Throw (ReferenceError "magic")
  else Ok (Some (_parseHeader chunk)).

Section WithReader.
Context {R : Type} `{ReadSeeker R}.

(** [entry.discard ()]: the entry is left as it is. *)
Definition discard (e : TarEntry) (r : R) : R :=
  let remaining := num_sub (entrySize e) (_read e) in
  if num_le remaining (Num 0) then r
  else rs_seek r remaining SEEK_MODE_CURRENT.

(** [entry.read (p)]: what the call resolves to, the buffer [p]
    afterwards, the entry and the source. *)
Definition read (e : TarEntry) (p : Uint8Array) (r : R)
  : option nat * Uint8Array * TarEntry * R :=
  let remaining := num_sub (size e) (_read e) in
  if num_le remaining (Num 0) then (None, p, e, r)
  else if num_ge remaining (Num (Z.of_nat (length p))) then
    let e' := set_read e (num_add (_read e) (Num (Z.of_nat (length p)))) in
    let '(res, r') := rs_read r (length p) in
    (count res, stored p res, e', r')
  else
    let e' := set_read e (num_add (_read e) remaining) in
    let block := new_Uint8Array (to_index remaining) in
    let '(res, r') := rs_read r (length block) in
    (count res, set_at0 p (stored block res), e', r').

(** The reader: [this.entry], [this._reader] and the buffer
    [this._chunk], which every header is read into. *)
Record Untar : Type := mkUntar {
  entry : option TarEntry;
  _reader : R;
  _chunk : Uint8Array;
}.

Definition new_Untar (reader : R) : Untar :=
  mkUntar None reader (new_Uint8Array 512).

Definition _getHeader (chunk : Uint8Array) (r : R)
  : result (option (gmap string Uint8Array)) * Uint8Array * R :=
  let '(read, r') := rs_read r (length chunk) in
  match read with
  | None => (Ok None, chunk, r')
  | Some _ => let chunk' := stored chunk read in (check_block chunk', chunk', r')
  end.

Definition extract (u : Untar) : result (option TarEntry) * Untar :=
  let r0 := match entry u with
            | Some e => discard e (_reader u)
            | None => _reader u
            end in
  match _getHeader (_chunk u) r0 with
  | (Throw x, chunk, r1) => (Throw x, mkUntar (entry u) r1 chunk)
  | (Ok None, chunk, r1) => (Ok None, mkUntar (entry u) r1 chunk)
  | (Ok (Some header), chunk, r1) =>
      let entry1 := new_TarEntry header in
      (Ok (Some entry1), mkUntar (Some entry1) r1 chunk)
  end.

(** The caller's [entry.discard ()] on the current entry. *)
Definition discard_current (u : Untar) : Untar :=
  match entry u with
  | Some e => mkUntar (Some e) (discard e (_reader u)) (_chunk u)
  | None => u
  end.

(** What [getIterator ().next ()] resolves to. *)
Record EntryResult : Type := mkEntryResult {
  value : option TarEntry;
  done : bool;
}.

Definition getIterator_next (u : Untar) : result EntryResult * Untar :=
  match extract u with
  | (Throw x, u') => (Throw x, u')
  | (Ok None, u') => (Ok (mkEntryResult None true), u')
  | (Ok (Some entry1), u') => (Ok (mkEntryResult (Some entry1) false), u')
  end.

(** [for await (let entry of untar)] with a body that reads nothing of the
    entries: [next ()] is called until it is done.  The loop is run with
    fuel; [None] means the fuel ran out. *)
Fixpoint entries_loop (fuel : nat) (u : Untar)
  : option (list TarEntry * result unit * Untar) :=
  match fuel with
  | O => None
  | S fuel' =>
      match getIterator_next u with
      | (Throw x, u') => Some ([], Throw x, u')
      | (Ok it, u') =>
          match done it, value it with
          | false, Some entry1 =>
              match entries_loop fuel' u' with
              | Some (es, r, u'') => Some (entry1 :: es, r, u'')
              | None => None
              end
          | _, _ => Some ([], Ok tt, u')
          end
      end
  end.

End WithReader.
Arguments Untar R : clear implicits.

End Seekable.

(** A source in memory: the bytes, the cursor, and [burst], the most bytes
    one [read] hands over (a source may give fewer bytes than asked for). *)
Record MemReader : Type := mkMemReader {
  data : Uint8Array;
  pos : Z;
  burst : nat;
}.

Definition mem_read (r : MemReader) (n : nat) : option Uint8Array * MemReader :=
  match drop (Z.to_nat (pos r)) (data r) with
  | [] => (None, r)
  | rest =>
      let bs := take (Nat.min n (burst r)) rest in
      (Some bs, mkMemReader (data r) (pos r + Z.of_nat (length bs)) (burst r))
  end.

Definition mem_seek (r : MemReader) (offset : number) (whence : Z) : MemReader :=
  match offset with
  | Num z =>
      if whence =? SEEK_MODE_CURRENT
      then mkMemReader (data r) (pos r + z) (burst r)
      else mkMemReader (data r) z (burst r)
  | NaN => r
  end.

#[export] Instance MemReader_ReadSeeker : ReadSeeker MemReader :=
  {| rs_read := mem_read; rs_seek := mem_seek; rs_position := pos |}.

(** ** Sample archives

    The decoder has no encoder next to it; these build the header blocks the
    examples below run the decoder on. *)

Module Archive.

Definition octal_digit (d : Z) : byte :=
  default x00 (Byte.of_N (Z.to_N (48 + d mod 8))).

(** [z] in octal on [digits] characters. *)
Fixpoint octal (digits : nat) (z : Z) : Uint8Array :=
  match digits with
  | O => []
  | S k => octal k (z / 8) ++ [octal_digit z]
  end.

(** A field of [len] bytes holding [bs], padded with zero bytes. *)
Definition field (len : nat) (bs : Uint8Array) : Uint8Array :=
  take len (bs ++ replicate len x00).

Definition blocksum (block : Uint8Array) : Z :=
  match Sequential._getChecksum block with
  | Num z => z
  | NaN => 0
  end.

(** Write the checksum of the block into its checksum field. *)
Definition seal (block : Uint8Array) : Uint8Array :=
  take 148 block ++ octal 6 (blocksum block) ++ [x00; x20] ++ drop 156 block.

Definition header (name : string) (mode : Uint8Array) (size : Z)
    (typeflag : byte) (magic : string) : Uint8Array :=
  seal (field 100 (bytes_of name) ++ field 8 mode ++ field 8 (octal 7 1000)
        ++ field 8 (octal 7 1000) ++ field 12 (octal 11 size)
        ++ field 12 (octal 11 0) ++ replicate 8 x20 ++ [typeflag]
        ++ field 100 [] ++ field 8 (bytes_of magic) ++ field 32 (bytes_of "root")
        ++ field 32 (bytes_of "wheel") ++ field 8 [] ++ field 8 []
        ++ field 155 [] ++ field 12 []).

Definition zero_block : Uint8Array := new_Uint8Array 512.

(** A body of [n] bytes [b], padded to whole records. *)
Definition body (n : nat) (b : byte) : Uint8Array :=
  replicate n b ++ replicate (Z.to_nat (ceil_div (Z.of_nat n) 512 * 512) - n) x00.

Definition file_a : Uint8Array := header "a.txt" (octal 7 420) 5 "0"%byte "ustar".
Definition file_b : Uint8Array := header "b.txt" (octal 7 420) 0 "0"%byte "ustar".

End Archive.

(** [_getHeader] gave a header: neither [null] nor an exception. *)
Definition is_header {A : Type} (r : result (option A)) : bool :=
  match r with
  | Ok (Some _) => true
  | _ => false
  end.

(** ** Definitions for the statements *)

(** The three decoders on the same two header blocks: one whose mode field
    is ["0000644"] and a zero byte, one whose mode field is eight zero
    bytes. *)
Definition mode_644 : Uint8Array :=
  Archive.header "a.txt" (bytes_of "0000644" ++ [x00]) 5 "0"%byte "ustar".
Definition mode_nul : Uint8Array :=
  Archive.header "a.txt" (replicate 8 x00) 5 "0"%byte "ustar".

Definition is_octal_digit (b : byte) : bool :=
  (48 <=? byte_val b) && (byte_val b <=? 55).

(** A header block that differs from [file_a] by its type flag. *)
Definition typed (flag : byte) : Uint8Array :=
  Archive.header "a.txt" (Archive.octal 7 420) 5 flag "ustar".

(** What the byte at [j] adds to the sum. *)
Definition weight (block : Uint8Array) (j : nat) : Z :=
  if (148 <=? j)%nat && (j <? 156)%nat then 0
  else match block !! j with
       | Some b => byte_val b
       | None => 0
       end.

Definition weights (block : Uint8Array) (l : list nat) : Z :=
  foldr (fun j acc => weight block j + acc) 0 l.

(** A header block with a good checksum whose magic is [tar]. *)
Definition magic_tar : Uint8Array :=
  Archive.header "a.txt" (Archive.octal 7 420) 5 "0"%byte "tar".

(** An archive of two files, the first with a body of five bytes, and its
    end; the entry of the first file; a source that has just given the
    first header. *)
Definition two_files : Uint8Array :=
  Archive.file_a ++ Archive.body 5 "x" ++ Archive.file_b
  ++ Archive.zero_block ++ Archive.zero_block.

Definition entry_a : Seekable.TarEntry :=
  Seekable.new_TarEntry (Seekable._parseHeader Archive.file_a).

Definition after_header (most : nat) : MemReader := mkMemReader two_files 512 most.

(** The name of the entry [extract ()] resolved to. *)
Definition entry_name (r : result (option Seekable.TarEntry)) : option string :=
  match r with
  | Ok (Some e) => Some (Seekable.name e)
  | _ => None
  end.

(** The reader on [two_files] after its first [extract ()]. *)
Definition at_entry_a : Seekable.Untar MemReader :=
  (Seekable.extract (Seekable.new_Untar (mkMemReader two_files 0 512))).2.



(** The entry and the source after [m] records of the body were taken:
    [s] is the declared size, [q] the number of records of the padded body,
    [reader0] the source at the start of the body. *)
Definition taken (s : Z) (q : nat) (reader0 : ChunkReader)
    (m : nat) (e : Sequential.TarEntry) (reader : ChunkReader) : Prop :=
  Sequential.size e = Num s
  ∧ Sequential.entrySize e = Num (512 * Z.of_nat q)
  ∧ Sequential._read e = Num (512 * Z.of_nat m)
  ∧ (m ≤ q)%nat
  ∧ reader = drop m reader0
  ∧ (Sequential._consumed e = true → m = q).

(** The bytes [read (p)] asks of the source. *)
Definition asked (e : Seekable.TarEntry) (p : Uint8Array) : nat :=
  let remaining := num_sub (Seekable.size e) (Seekable._read e) in
  if num_le remaining (Num 0) then 0%nat
  else if num_ge remaining (Num (Z.of_nat (length p))) then length p
  else to_index remaining.

(** The caller reads the entry into the buffers [ps], one after the other. *)
Fixpoint reads {R : Type} `{ReadSeeker R}
    (ps : list Uint8Array) (e : Seekable.TarEntry) (r : R)
  : Seekable.TarEntry * R :=
  match ps with
  | [] => (e, r)
  | p :: ps' => let '(_, _, e', r') := Seekable.read e p r in reads ps' e' r'
  end.







(** The turn of the loop of [_getChecksum]. *)
Definition sum_step (block : Uint8Array) (sum : number) (i : nat) : number :=
  if (148 <=? i)%nat && (i <? 156)%nat then sum
  else num_add sum (index block i).


(** [_getHeader] takes the buffer for the end of the archive. *)
Definition ended (chunk : Uint8Array) : Prop :=
  Seekable.check_block chunk = Ok None.

(** What the source in memory has left from its cursor on. *)
Definition rest_of (r : MemReader) : Uint8Array :=
  drop (Z.to_nat (pos r)) (data r).


(** One file and the end of the archive, for both readers, each after the
    header of the file was read. *)
Definition ended_archive : Uint8Array :=
  Archive.file_a ++ Archive.body 5 "x" ++ Archive.zero_block
  ++ Archive.zero_block ++ Archive.zero_block.



Definition seekable_at_a : Seekable.Untar MemReader :=
  Seekable.mkUntar (Some entry_a) (mkMemReader ended_archive 512 512) Archive.file_a.

Definition seekable_at_end : Seekable.Untar MemReader :=
  (Seekable.extract seekable_at_a).2.

(** A numeric field read by the TextDecoder revision when its text is empty
    or not. *)
Definition nan_if_empty (arr : Uint8Array) (v : number) : number :=
  if truthy (decodeString arr) then v else NaN.

(** A header block of the chunked source with the records of its body: the
    block decodes, it declares a size, and the body has the records of that
    many bytes. *)
Definition whole_file (f : Uint8Array * ChunkReader) : Prop :=
  is_header (Sequential.check_block f.1) = true
  ∧ ∃ s, 0 ≤ s
      ∧ decodeOctal (subarray f.1 124 136) = Num s
      ∧ Z.of_nat (length f.2) = ceil_div s 512
      ∧ Forall (fun c => length c = 512%nat) f.2.

(** The chunks of an archive of these files. *)
Definition chunks_of (files : list (Uint8Array * ChunkReader)) : ChunkReader :=
  concat (map (fun f => f.1 :: f.2) files).

(** What may follow the last file in a chunked source: nothing, or a block
    that [_getHeader] takes for the end of the archive and anything after
    it. *)
Definition archive_end (tail : ChunkReader) : Prop :=
  match tail with
  | [] => True
  | block :: _ => Sequential.check_block block = Ok None
  end.

(** The entry of the first revision for a header block. *)
Definition sequential_entry (block : Uint8Array) : Sequential.TarEntry :=
  Sequential.new_TarEntry (Sequential._parseHeader block).

(** The entry of the ReadSeeker revision for a header block. *)
Definition seekable_entry (block : Uint8Array) : Seekable.TarEntry :=
  Seekable.new_TarEntry (Seekable._parseHeader block).

(** A header block whose size field starts with the byte 0x80, the mark of a
    size written in base 256. *)
Definition file_base256 : Uint8Array := <[124%nat := x80]> Archive.file_a.

(** What may follow the last file in a source of bytes: nothing, or a block
    that [_getHeader] takes for the end of the archive and anything after
    it. *)
Definition archive_end_bytes (tail : Uint8Array) : Prop :=
  tail = [] ∨ ((512 ≤ length tail)%nat ∧ ended (take 512 tail)).

(** The archive [a.txt] cut after the first 100 bytes of its body, read up
    to the end of the header. *)
Definition cut_in_body : MemReader :=
  mkMemReader (Archive.file_a ++ take 100 (Archive.body 5 "x")) 512 512.

(** ** Examples *)

Example decodeOctal_644 :
  decodeOctal (bytes_of "0000644" ++ [x00]) = Num 420.
Proof. vm_compute. reflexivity. Qed.

Example FILE_TYPES_5 : FILE_TYPES_at (Num 5) = Some "directory".
Proof. vm_compute. reflexivity. Qed.

Example FILE_TYPES_nan : FILE_TYPES_at NaN = None.
Proof. vm_compute. reflexivity. Qed.

Example parseInt_neg : parseInt "  -17x" 8 = Num (-15).
Proof. vm_compute. reflexivity. Qed.

Example indexOf_ustar : indexOf "ustar  " "ustar" = 0.
Proof. vm_compute. reflexivity. Qed.

Example parseHeader_size block :
  Sequential._parseHeader block !! "size" = Some (subarray block 124 136).
Proof. reflexivity. Qed.

Example file_a_length : length Archive.file_a = 512%nat.
Proof. vm_compute. reflexivity. Qed.

Example file_a_sequential :
  is_header (Sequential.check_block Archive.file_a) = true.
Proof. vm_compute. reflexivity. Qed.

Example file_a_seekable :
  is_header (Seekable.check_block Archive.file_a) = true.
Proof. vm_compute. reflexivity. Qed.

Lemma is_header_inv {A : Type} (r : result (option A)) :
  is_header r = true → ∃ h, r = Ok (Some h).
Proof. destruct r as [[h|]|]; try discriminate. intros _. exists h. reflexivity. Qed.

Example file_a_entry :
  let e := Sequential.new_TarEntry (Sequential._parseHeader Archive.file_a) in
  Sequential.name e = "a.txt" ∧ Sequential.mode e = Num 420
  ∧ Sequential.size e = Num 5 ∧ Sequential.entrySize e = Num 512
  ∧ Sequential.type e = Some "file" ∧ Sequential.owner e = "root".
Proof. vm_compute. repeat split; reflexivity. Qed.

(** ** Octal fields *)

Lemma decodeOctal_all_nul (n : nat) : decodeOctal (replicate n x00) = Num 0.
Proof. destruct n; reflexivity. Qed.

Lemma decodeOctal_text (arr : Uint8Array) :
  truthy (decodeString arr) = true →
  decodeOctal arr = parseInt (decodeString arr) 8.
Proof. unfold decodeOctal. intros ->. reflexivity. Qed.

Lemma decoder_decode_all_nul (n : nat) :
  SequentialTD.decoder_decode (replicate n x00)
  = Some (string_of_list_byte (replicate n x00)).
Proof.
  unfold SequentialTD.decoder_decode.
  assert (forallb (fun b => byte_val b <? 128) (replicate n x00) = true) as ->.
  { induction n as [|n IH]; [reflexivity|]. simpl. exact IH. }
  reflexivity.
Qed.

Lemma octal_field_all_nul (n : nat) :
  SequentialTD.octal_field (replicate n x00) = Some NaN.
Proof.
  unfold SequentialTD.octal_field. rewrite decoder_decode_all_nul.
  destruct n; reflexivity.
Qed.

(** C9. Specified: every numeric field is decoded as text and parsed in base
    8, in every revision of the metadata decoder; ["0000644"] with its zero
    byte gives 420 and a field of zero bytes gives 0.  The code: the first
    and the ReadSeeker revision do so.  The TextDecoder revision parses the
    text of the whole field: it gives 420 too, but NaN for a field of zero
    bytes, as for the device numbers of an ordinary file. *)
Theorem C9_octal_fields :
  Sequential.prop (Sequential._parseHeader mode_644) "mode" = bytes_of "0000644" ++ [x00]
  ∧ Sequential.prop (Sequential._parseHeader mode_nul) "mode" = replicate 8 x00
  ∧ Sequential.mode (Sequential.new_TarEntry (Sequential._parseHeader mode_644)) = Num 420
  ∧ Seekable.mode (Seekable.new_TarEntry (Seekable._parseHeader mode_644)) = Num 420
  ∧ SequentialTD.mode <$> SequentialTD.new_TarEntry (Sequential._parseHeader mode_644)
    = Some (Num 420)
  ∧ Sequential.mode (Sequential.new_TarEntry (Sequential._parseHeader mode_nul)) = Num 0
  ∧ Seekable.mode (Seekable.new_TarEntry (Seekable._parseHeader mode_nul)) = Num 0
  ∧ SequentialTD.mode <$> SequentialTD.new_TarEntry (Sequential._parseHeader mode_nul)
    = Some NaN
  ∧ SequentialTD.majorNumber <$> SequentialTD.new_TarEntry (Sequential._parseHeader mode_644)
    = Some NaN.
Proof. vm_compute. repeat split; reflexivity. Qed.

(** ** The kind of an entry *)

Lemma subarray_one (block : Uint8Array) (i : nat) (b : byte) :
  block !! i = Some b → subarray block i (S i) = [b].
Proof.
  intros Hb. unfold subarray. replace (S i - i)%nat with 1%nat by lia.
  assert (drop i block !! 0%nat = Some b) as H0.
  { rewrite lookup_drop. rewrite Nat.add_0_r. exact Hb. }
  destruct (drop i block) as [|x rest]; [discriminate|].
  simpl in H0. injection H0 as ->. reflexivity.
Qed.

Lemma kind_of_byte (b : byte) :
  is_octal_digit b = false → b ≠ x00 →
  FILE_TYPES_at (decodeOctal [b]) = None.
Proof.
  intros Hd Hz. destruct b; try (vm_compute; reflexivity);
    first [ discriminate Hd | exfalso; apply Hz; reflexivity ].
Qed.

Lemma kind_of_digit (b : byte) :
  is_octal_digit b = true → is_Some (FILE_TYPES_at (decodeOctal [b])).
Proof.
  intros Hd. destruct b; try discriminate Hd; vm_compute; eexists; reflexivity.
Qed.

(** C8, counterexample. The type flags ["8"] and ["9"] are outside the table, their
    blocks pass the checks, and both entries have the kind [undefined]: the
    kind does not tell which digit it was. *)
Lemma C8_counterexample :
  ¬ (∃ raw_digit : option string → byte,
       ∀ flag, is_octal_digit flag = false →
         is_header (Sequential.check_block (typed flag)) = true →
         raw_digit (Sequential.type (Sequential.new_TarEntry
                      (Sequential._parseHeader (typed flag)))) = flag
         ∧ raw_digit (Seekable.type (Seekable.new_TarEntry
                        (Seekable._parseHeader (typed flag)))) = flag).
Proof.
  intros [raw H].
  assert (Sequential.type (Sequential.new_TarEntry
            (Sequential._parseHeader (typed "8"))) = None) as E8
    by (vm_compute; reflexivity).
  assert (Sequential.type (Sequential.new_TarEntry
            (Sequential._parseHeader (typed "9"))) = None) as E9
    by (vm_compute; reflexivity).
  destruct (H "8"%byte) as [H8 _]; [reflexivity | vm_compute; reflexivity |].
  destruct (H "9"%byte) as [H9 _]; [reflexivity | vm_compute; reflexivity |].
  rewrite E8 in H8. rewrite E9 in H9. rewrite H8 in H9. discriminate H9.
Qed.

(** C8, as amended. A type flag that is neither an octal digit nor the zero byte gives
    the entry the kind [undefined], in the first and in the ReadSeeker
    revision; it is never given the kind of a file. *)
Theorem C8_unknown_kind_is_undefined (block : Uint8Array) (flag : byte) :
  block !! 156%nat = Some flag →
  is_octal_digit flag = false →
  flag ≠ x00 →
  Sequential.type (Sequential.new_TarEntry (Sequential._parseHeader block)) = None
  ∧ Seekable.type (Seekable.new_TarEntry (Seekable._parseHeader block)) = None.
Proof.
  intros Hb Hd Hz.
  assert (Sequential.prop (Sequential._parseHeader block) "type" = [flag]) as H1.
  { change (subarray block 156 157 = [flag]). apply subarray_one, Hb. }
  assert (Seekable.prop (Seekable._parseHeader block) "type" = [flag]) as H2.
  { change (subarray block 156 157 = [flag]). apply subarray_one, Hb. }
  split.
  - change (FILE_TYPES_at (decodeOctal
              (Sequential.prop (Sequential._parseHeader block) "type")) = None).
    rewrite H1. apply kind_of_byte; assumption.
  - change (FILE_TYPES_at (decodeOctal
              (Seekable.prop (Seekable._parseHeader block) "type")) = None).
    rewrite H2. apply kind_of_byte; assumption.
Qed.

Lemma C8_unknown_kind_is_undefined_witness :
  Sequential.type (Sequential.new_TarEntry (Sequential._parseHeader (typed "8"))) = None
  ∧ Seekable.type (Seekable.new_TarEntry (Seekable._parseHeader (typed "8"))) = None.
Proof.
  apply (C8_unknown_kind_is_undefined (typed "8") "8"%byte).
  - vm_compute. reflexivity.
  - reflexivity.
  - discriminate.
Defined.

(** ** The checksum of a block *)

Lemma getChecksum_same (block : Uint8Array) :
  Seekable._getChecksum block = Sequential._getChecksum block.
Proof. reflexivity. Qed.

Lemma byte_val_range (b : byte) : 0 ≤ byte_val b ≤ 255.
Proof.
  unfold byte_val. pose proof (Byte.to_N_bounded b) as Hb.
  lia.
Qed.

Lemma byte_val_inj (a b : byte) : byte_val a = byte_val b → a = b.
Proof.
  unfold byte_val. intros Hab. apply N2Z.inj in Hab.
  pose proof (Byte.of_to_N a) as Ha. pose proof (Byte.of_to_N b) as Hb.
  rewrite Hab in Ha. rewrite Ha in Hb. injection Hb as ->. reflexivity.
Qed.

Lemma weight_nonneg (block : Uint8Array) (j : nat) : 0 ≤ weight block j.
Proof.
  unfold weight. destruct ((148 <=? j)%nat && (j <? 156)%nat); [lia|].
  destruct (block !! j) as [b|]; [apply byte_val_range | lia].
Qed.

Lemma weights_nonneg (block : Uint8Array) (l : list nat) : 0 ≤ weights block l.
Proof.
  induction l as [|j l IH]; simpl; [lia|].
  pose proof (weight_nonneg block j). lia.
Qed.

Lemma weights_app (block : Uint8Array) (l1 l2 : list nat) :
  weights block (l1 ++ l2) = weights block l1 + weights block l2.
Proof. induction l1 as [|j l1 IH]; simpl; [reflexivity | rewrite IH; lia]. Qed.

(** The loop of [_getChecksum] over indices inside the block. *)
Lemma checksum_loop (block : Uint8Array) (l : list nat) (s : Z) :
  Forall (fun j => (j < length block)%nat) l →
  fold_left
    (fun sum i =>
       if (148 <=? i)%nat && (i <? 156)%nat then sum
       else num_add sum (index block i))
    l (Num s)
  = Num (s + weights block l).
Proof.
  revert s. induction l as [|j l IH]; intros s Hl.
  - simpl. f_equal. lia.
  - inversion Hl as [|? ? Hj Hl']; subst.
    cbn [fold_left weights foldr]. fold (weights block l).
    unfold weight, index.
    destruct ((148 <=? j)%nat && (j <? 156)%nat).
    + rewrite IH by assumption. f_equal; lia.
    + destruct (lookup_lt_is_Some_2 block j Hj) as [b Hb]. rewrite Hb.
      cbn [num_add]. rewrite IH by assumption. f_equal; lia.
Qed.

Lemma getChecksum_weights (block : Uint8Array) :
  length block = 512%nat →
  Sequential._getChecksum block
  = Num (INITIAL_CHECKSUM + weights block (seq 0 512)).
Proof.
  intros Hlen. unfold Sequential._getChecksum. apply checksum_loop.
  apply Forall_forall. intros j Hj. apply elem_of_seq in Hj. lia.
Qed.

(** Writing one byte changes only the weight of its index. *)
Lemma weights_insert_other (block : Uint8Array) (i : nat) (b : byte) (l : list nat) :
  Forall (fun j => j ≠ i) l →
  weights (<[i:=b]> block) l = weights block l.
Proof.
  induction l as [|j l IH]; intros Hl; simpl; [reflexivity|].
  inversion Hl as [|? ? Hj Hl']; subst.
  rewrite IH by assumption. f_equal.
  unfold weight. rewrite list_lookup_insert_ne by congruence. reflexivity.
Qed.

Lemma seq_split_at (i n : nat) :
  (i < n)%nat → seq 0 n = seq 0 i ++ [i] ++ seq (S i) (n - S i).
Proof.
  intros Hi. replace n with (i + (1 + (n - S i)))%nat at 1 by lia.
  rewrite seq_app. rewrite seq_app. simpl.
  replace (i + 1)%nat with (S i) by lia. reflexivity.
Qed.

Lemma weights_insert (block : Uint8Array) (i : nat) (b old : byte) :
  length block = 512%nat → block !! i = Some old →
  ¬ (148 ≤ i < 156)%nat →
  weights (<[i:=b]> block) (seq 0 512)
  = weights block (seq 0 512) + byte_val b - byte_val old.
Proof.
  intros Hlen Hold Hi.
  assert (i < 512)%nat as Hlt.
  { rewrite <- Hlen. apply lookup_lt_is_Some. eexists; exact Hold. }
  rewrite (seq_split_at i 512 Hlt). rewrite !weights_app.
  rewrite (weights_insert_other block i b (seq 0 i)).
  2:{ apply Forall_forall. intros j Hj. apply elem_of_seq in Hj. lia. }
  rewrite (weights_insert_other block i b (seq (S i) (512 - S i))).
  2:{ apply Forall_forall. intros j Hj. apply elem_of_seq in Hj. lia. }
  simpl. unfold weight.
  assert ((148 <=? i)%nat && (i <? 156)%nat = false) as ->.
  { apply andb_false_iff.
    destruct (Nat.leb_spec 148 i); [right | left; reflexivity].
    apply Nat.ltb_ge. lia. }
  rewrite list_lookup_insert_eq by lia. rewrite Hold. lia.
Qed.

(** The sum is at least the start value and the weight of any one index. *)
Lemma weights_ge_one (block : Uint8Array) (j : nat) :
  (j < 512)%nat → weight block j ≤ weights block (seq 0 512).
Proof.
  intros Hj. rewrite (seq_split_at j 512 Hj). rewrite !weights_app.
  pose proof (weights_nonneg block (seq 0 j)).
  pose proof (weights_nonneg block (seq (S j) (512 - S j))).
  change (weights block [j]) with (weight block j + 0). lia.
Qed.

(** ** The magic *)

Lemma indexOf_0_prefix (s needle : string) :
  indexOf s needle = 0 → String.prefix needle s = true.
Proof.
  unfold indexOf. destruct (String.index 0 needle s) as [n|] eqn:Hidx; [|lia].
  intros Hn. assert (n = 0%nat) as -> by lia.
  apply index_correct1 in Hidx.
  apply prefix_correct. exact Hidx.
Qed.

Lemma decodeString_cons (arr : Uint8Array) (c : ascii) (s : string) :
  decodeString arr = String c s →
  ∃ b rest, arr = b :: rest ∧ b = byte_of_ascii c ∧ b ≠ x00
            ∧ decodeString rest = s.
Proof.
  destruct arr as [|b rest]; simpl; [discriminate|].
  destruct (Byte.eqb b x00) eqn:Hb; [discriminate|].
  intros Hs. injection Hs as Hc Hrest. exists b, rest.
  repeat split; [| apply Byte.eqb_false, Hb | exact Hrest].
  rewrite <- Hc. unfold fromCharCode. symmetry. apply byte_of_ascii_of_byte.
Qed.

(** A magic that starts with [ustar] starts with the bytes of [u] and [s]. *)
Lemma magic_ustar_bytes (arr : Uint8Array) :
  indexOf (decodeString arr) "ustar" = 0 →
  ∃ rest, arr = "u"%byte :: "s"%byte :: rest.
Proof.
  intros H0. apply indexOf_0_prefix in H0.
  destruct (decodeString arr) as [|c1 s1] eqn:H1;
    cbn [String.prefix] in H0; [discriminate H0|].
  destruct (ascii_dec "u" c1) as [<-|]; [|discriminate H0].
  destruct s1 as [|c2 s2]; cbn [String.prefix] in H0; [discriminate H0|].
  destruct (ascii_dec "s" c2) as [<-|]; [|discriminate H0].
  apply decodeString_cons in H1 as (b1 & r1 & -> & -> & _ & H2).
  apply decodeString_cons in H2 as (b2 & r2 & -> & -> & _ & _).
  exists r2. reflexivity.
Qed.

(** ** One byte of a valid header changed *)

Lemma subarray_insert_outside (block : Uint8Array) (i : nat) (b : byte) (lo hi : nat) :
  ¬ (lo ≤ i < hi)%nat →
  subarray (<[i:=b]> block) lo hi = subarray block lo hi.
Proof.
  intros Hi. unfold subarray. destruct (decide (i < lo)%nat) as [Hlt|Hge].
  - rewrite drop_insert_lt by exact Hlt. reflexivity.
  - rewrite drop_insert_ge by lia. rewrite take_insert_ge by lia. reflexivity.
Qed.

Lemma num_seq_true (a b : number) :
  num_seq a b = true → ∃ z, a = Num z ∧ b = Num z.
Proof.
  destruct a as [|x], b as [|y]; simpl; try discriminate.
  intros Hxy. apply Z.eqb_eq in Hxy. subst. eexists; split; reflexivity.
Qed.

Lemma take_starts (n : nat) (l : Uint8Array) (a b : byte) (rest : Uint8Array) :
  take n l = a :: b :: rest → ∃ rest', l = a :: b :: rest'.
Proof.
  destruct n as [|[|n]], l as [|x [|y l]]; simpl; try discriminate.
  intros Heq. injection Heq as -> -> _. eexists; reflexivity.
Qed.

Lemma flipped_block (block : Uint8Array) (i : nat) (b : byte) :
  length block = 512%nat →
  (i < 512)%nat →
  ¬ (148 ≤ i < 156)%nat →
  block !! i ≠ Some b →
  num_seq (parseInt (decodeString (subarray block 148 156)) 8)
          (Sequential._getChecksum block) = true →
  (∃ rest, drop 257 block = "u"%byte :: "s"%byte :: rest) →
  num_seq (parseInt (decodeString (subarray (<[i:=b]> block) 148 156)) 8)
          (Sequential._getChecksum (<[i:=b]> block)) = false
  ∧ num_seq (Sequential._getChecksum (<[i:=b]> block)) (Num INITIAL_CHECKSUM) = false.
Proof.
  intros Hlen Hi Hout Hne Hsum [rest Hmagic].
  destruct (lookup_lt_is_Some_2 block i) as [old Hold]; [lia|].
  assert (byte_val b ≠ byte_val old) as Hval.
  { intros Heq. apply byte_val_inj in Heq. subst. apply Hne, Hold. }
  assert (block !! 257%nat = Some "u"%byte) as Hu.
  { rewrite <- (Nat.add_0_r 257), <- lookup_drop, Hmagic. reflexivity. }
  assert (block !! 258%nat = Some "s"%byte) as Hs.
  { change 258%nat with (257 + 1)%nat. rewrite <- lookup_drop, Hmagic. reflexivity. }
  assert (0 < weights (<[i:=b]> block) (seq 0 512)) as Hpos.
  { destruct (decide (i = 257%nat)) as [->|Hi257].
    - pose proof (weights_ge_one (<[257%nat:=b]> block) 258 ltac:(lia)) as Hw.
      unfold weight in Hw. rewrite list_lookup_insert_ne in Hw by lia.
      rewrite Hs in Hw. change (115 ≤ weights (<[257%nat:=b]> block) (seq 0 512)) in Hw.
      apply (Z.lt_le_trans 0 115); [reflexivity | exact Hw].
    - pose proof (weights_ge_one (<[i:=b]> block) 257 ltac:(lia)) as Hw.
      unfold weight in Hw. rewrite list_lookup_insert_ne in Hw by lia.
      rewrite Hu in Hw. change (117 ≤ weights (<[i:=b]> block) (seq 0 512)) in Hw.
      apply (Z.lt_le_trans 0 117); [reflexivity | exact Hw]. }
  rewrite subarray_insert_outside by exact Hout.
  assert (length (<[i:=b]> block) = 512%nat) as Hlen'
    by (rewrite length_insert; exact Hlen).
  pose proof (getChecksum_weights (<[i:=b]> block) Hlen') as Hsum'.
  rewrite Hsum'. clear Hsum'.
  pose proof (weights_insert block i b old Hlen Hold Hout) as Hins.
  apply num_seq_true in Hsum as (z & Hfield & Hblock).
  rewrite Hfield. rewrite (getChecksum_weights block Hlen) in Hblock.
  assert (INITIAL_CHECKSUM + weights block (seq 0 512) = z) as Hz by congruence.
  clear Hblock.
  set (w' := weights (<[i:=b]> block) (seq 0 512)) in *.
  set (w := weights block (seq 0 512)) in *.
  clearbody w w'.
  cbn [num_seq]. split; apply Z.eqb_neq; lia.
Qed.

Lemma sequential_check_block_ok (block : Uint8Array) :
  is_header (Sequential.check_block block) = true →
  num_seq (parseInt (decodeString (subarray block 148 156)) 8)
          (Sequential._getChecksum block) = true
  ∧ ∃ rest, drop 257 block = "u"%byte :: "s"%byte :: rest.
Proof.
  intros Hok. apply is_header_inv in Hok as [h Hok].
  unfold Sequential.check_block in Hok.
  change (Sequential.prop (Sequential._parseHeader block) "checksum")
    with (subarray block 148 156) in Hok.
  change (Sequential.prop (Sequential._parseHeader block) "ustar")
    with (subarray block 257 265) in Hok.
  destruct (num_seq (parseInt (decodeString (subarray block 148 156)) 8)
              (Sequential._getChecksum block)) eqn:Hsum; cbn [negb] in Hok.
  2:{ destruct (num_seq _ _) in Hok; discriminate Hok. }
  split; [reflexivity|].
  destruct (indexOf (decodeString (subarray block 257 265)) "ustar" =? 0) eqn:Hm;
    cbn [negb] in Hok; [|discriminate Hok].
  apply Z.eqb_eq in Hm. apply magic_ustar_bytes in Hm as [rest Hrest].
  unfold subarray in Hrest. apply take_starts in Hrest. exact Hrest.
Qed.

Lemma seekable_check_block_ok (block : Uint8Array) :
  is_header (Seekable.check_block block) = true →
  num_seq (parseInt (decodeString (subarray block 148 156)) 8)
          (Sequential._getChecksum block) = true
  ∧ ∃ rest, drop 257 block = "u"%byte :: "s"%byte :: rest.
Proof.
  intros Hok. apply is_header_inv in Hok as [h Hok].
  unfold Seekable.check_block in Hok.
  rewrite getChecksum_same in Hok.
  destruct (num_seq (parseInt (decodeString (subarray block 148 156)) 8)
              (Sequential._getChecksum block)) eqn:Hsum; cbn [negb] in Hok.
  2:{ destruct (num_seq _ _) in Hok; discriminate Hok. }
  split; [reflexivity|].
  destruct (indexOf (decodeString (subarray block 257 263)) "ustar" =? 0) eqn:Hm;
    cbn [negb] in Hok; [|discriminate Hok].
  apply Z.eqb_eq in Hm. apply magic_ustar_bytes in Hm as [rest Hrest].
  unfold subarray in Hrest. apply take_starts in Hrest. exact Hrest.
Qed.

(** C5. Take a header block of 512 bytes that decodes, and give one byte
    outside the checksum field (offsets 148 to 155) another value: decoding
    the new block fails with the checksum error, in the first and in the
    ReadSeeker revision.  (The stored checksum is untouched and the sum has
    changed, so no such change can pass; nor can it leave the sum of the
    empty block, for the magic is still there.) *)
Theorem C5_changed_byte_fails_checksum (block : Uint8Array) (i : nat) (b : byte) :
  length block = 512%nat →
  (i < 512)%nat →
  ¬ (148 ≤ i < 156)%nat →
  block !! i ≠ Some b →
  (is_header (Sequential.check_block block) = true →
   Sequential.check_block (<[i:=b]> block) = Throw ChecksumError)
  ∧ (is_header (Seekable.check_block block) = true →
     Seekable.check_block (<[i:=b]> block) = Throw ChecksumError).
Proof.
  intros Hlen Hi Hout Hne. split; intros Hok.
  - apply sequential_check_block_ok in Hok as [Hsum Hmagic].
    destruct (flipped_block block i b Hlen Hi Hout Hne Hsum Hmagic) as [H1 H2].
    unfold Sequential.check_block.
    change (Sequential.prop (Sequential._parseHeader (<[i:=b]> block)) "checksum")
      with (subarray (<[i:=b]> block) 148 156).
    rewrite H1, H2. reflexivity.
  - apply seekable_check_block_ok in Hok as [Hsum Hmagic].
    destruct (flipped_block block i b Hlen Hi Hout Hne Hsum Hmagic) as [H1 H2].
    unfold Seekable.check_block. rewrite getChecksum_same.
    rewrite H1, H2. reflexivity.
Qed.

Lemma C5_changed_byte_fails_checksum_witness :
  Sequential.check_block (<[0%nat:="b"%byte]> Archive.file_a) = Throw ChecksumError
  ∧ Seekable.check_block (<[0%nat:="b"%byte]> Archive.file_a) = Throw ChecksumError.
Proof.
  destruct (C5_changed_byte_fails_checksum Archive.file_a 0 "b"%byte) as [H1 H2].
  - vm_compute. reflexivity.
  - lia.
  - lia.
  - vm_compute. discriminate.
  - split.
    + apply H1. vm_compute. reflexivity.
    + apply H2. vm_compute. reflexivity.
Defined.

(** ** A magic that is not ustar *)

Lemma sequential_bad_magic (block : Uint8Array) :
  num_seq (parseInt (decodeString (subarray block 148 156)) 8)
          (Sequential._getChecksum block) = true →
  indexOf (decodeString (subarray block 257 265)) "ustar" ≠ 0 →
  Sequential.check_block block
  = Throw (UnsupportedFormatError (decodeString (subarray block 257 265))).
Proof.
  intros Hsum Hmagic. unfold Sequential.check_block.
  change (Sequential.prop (Sequential._parseHeader block) "checksum")
    with (subarray block 148 156).
  change (Sequential.prop (Sequential._parseHeader block) "ustar")
    with (subarray block 257 265).
  rewrite Hsum. cbn [negb].
  apply Z.eqb_neq in Hmagic. rewrite Hmagic. reflexivity.
Qed.

Lemma seekable_bad_magic (block : Uint8Array) :
  num_seq (parseInt (decodeString (subarray block 148 156)) 8)
          (Seekable._getChecksum block) = true →
  indexOf (decodeString (subarray block 257 263)) "ustar" ≠ 0 →
  Seekable.check_block block = Throw (ReferenceError "magic").
Proof.
  intros Hsum Hmagic. unfold Seekable.check_block.
  rewrite Hsum. cbn [negb].
  apply Z.eqb_neq in Hmagic. rewrite Hmagic. reflexivity.
Qed.

(** C7. Specified: a block that passes the checksum and whose magic does not
    start with [ustar] is refused with the error of the unsupported format,
    which carries the decoded magic.  The code: the first revision does so.
    The ReadSeeker revision builds the message from a variable [magic] that
    it does not declare, and the reference error is raised in place of it. *)
Theorem C7_magic_not_ustar :
  num_seq (parseInt (decodeString (subarray magic_tar 148 156)) 8)
          (Seekable._getChecksum magic_tar) = true
  ∧ decodeString (subarray magic_tar 257 263) = "tar"
  ∧ Sequential.check_block magic_tar
    = Throw (Error "Unsupported archive format: tar")
  ∧ Seekable.check_block magic_tar = Throw (ReferenceError "magic").
Proof. vm_compute. repeat split; reflexivity. Qed.

(** ** The block of zero bytes *)

Lemma zero_block_checks :
  Sequential._getChecksum Archive.zero_block = Num INITIAL_CHECKSUM
  ∧ Sequential.check_block Archive.zero_block = Ok None
  ∧ Seekable.check_block Archive.zero_block = Ok None.
Proof. vm_compute. repeat split; reflexivity. Qed.

Example zero_block_text_decoder :
  SequentialTD.check_block Archive.zero_block = Some (Ok None).
Proof. vm_compute. reflexivity. Qed.

Lemma stored_zeros (n k : nat) :
  set_at0 (replicate n x00) (take k (replicate n x00)) = replicate n x00.
Proof.
  unfold set_at0. rewrite take_replicate, length_replicate, drop_replicate.
  rewrite <- replicate_add. f_equal. lia.
Qed.

Lemma getHeader_zero_block {R : Type} `{ReadSeeker R}
    (chunk : Uint8Array) (r r' : R) (bs : Uint8Array) :
  rs_read r (length chunk) = (Some bs, r') →
  stored chunk (Some bs) = Archive.zero_block →
  Seekable._getHeader chunk r = (Ok None, Archive.zero_block, r').
Proof.
  intros Hread Hzero. unfold Seekable._getHeader. rewrite Hread, Hzero.
  destruct zero_block_checks as (_ & _ & ->). reflexivity.
Qed.

Lemma mem_read_zero_block (most : nat) :
  mem_read (mkMemReader Archive.zero_block 0 most) 512
  = (Some (take (Nat.min 512 most) Archive.zero_block),
     mkMemReader Archive.zero_block
       (0 + Z.of_nat (length (take (Nat.min 512 most) Archive.zero_block))) most).
Proof. reflexivity. Qed.

(** C6. An archive that is one block of 512 zero bytes gives no entry and no
    error: the first [extract ()] resolves to [null], for the sum of the
    block is the start value 256.  This holds in the first revision, and in
    the ReadSeeker revision however many bytes the source hands over at
    once. *)
Theorem C6_zero_block_is_end_of_archive :
  INITIAL_CHECKSUM = 256
  ∧ Sequential._getChecksum Archive.zero_block = Num 256
  ∧ Sequential.extract (Sequential.new_Untar [Archive.zero_block])
    = Some (Ok None, Sequential.mkUntar None [])
  ∧ ∀ most : nat,
      fst (Seekable.extract
             (Seekable.new_Untar (mkMemReader Archive.zero_block 0 most)))
      = Ok None.
Proof.
  split; [reflexivity|]. split; [vm_compute; reflexivity|].
  split; [vm_compute; reflexivity|].
  intros most. unfold Seekable.extract, Seekable.new_Untar.
  cbn [Seekable.entry Seekable._reader Seekable._chunk].
  erewrite getHeader_zero_block.
  - reflexivity.
  - unfold new_Uint8Array. rewrite length_replicate. apply mem_read_zero_block.
  - apply stored_zeros.
Qed.

(** ** The source in memory keeps the laws *)

#[export] Instance MemReader_laws : ReadSeekerLaws MemReader.
Proof.
  split.
  - intros r n bs r'. cbn [rs_read MemReader_ReadSeeker]. unfold mem_read.
    destruct (drop (Z.to_nat (pos r)) (data r)) as [|x rest]; [discriminate|].
    intros Heq. injection Heq as <- _. rewrite length_take. lia.
  - intros r n bs r'. cbn [rs_read rs_position MemReader_ReadSeeker]. unfold mem_read.
    destruct (drop (Z.to_nat (pos r)) (data r)) as [|x rest]; [discriminate|].
    intros Heq. injection Heq as <- <-. reflexivity.
  - intros r n r'. cbn [rs_read rs_position MemReader_ReadSeeker]. unfold mem_read.
    destruct (drop (Z.to_nat (pos r)) (data r)) as [|x rest]; [|discriminate].
    intros Heq. injection Heq as <-. reflexivity.
  - intros r z. reflexivity.
Qed.

(** ** ReadSeeker entries: [read] and [discard] *)

Section SeekableEntry.
Context {R : Type} `{ReadSeekerLaws R}.


(** [discard] asks the source to move by what is left of the padded
    size. *)
Lemma discard_seeks_remaining (e : Seekable.TarEntry) (r : R) (remaining : Z) :
  num_sub (Seekable.entrySize e) (Seekable._read e) = Num remaining →
  0 < remaining →
  Seekable.discard e r = rs_seek r (Num remaining) SEEK_MODE_CURRENT
  ∧ rs_position (Seekable.discard e r) = rs_position r + remaining.
Proof.
  intros Hrem Hpos. unfold Seekable.discard. rewrite Hrem. cbn [num_le].
  destruct (Z.leb_spec remaining 0) as [Hle|_]; [lia|].
  split; [reflexivity | apply seek_position].
Qed.

(** It does not write the entry, so a second [discard] moves the source
    once more. *)
Lemma discard_twice (e : Seekable.TarEntry) (r : R) (remaining : Z) :
  num_sub (Seekable.entrySize e) (Seekable._read e) = Num remaining →
  0 < remaining →
  rs_position (Seekable.discard e (Seekable.discard e r))
  = rs_position r + 2 * remaining.
Proof.
  intros Hrem Hpos.
  destruct (discard_seeks_remaining e (Seekable.discard e r) remaining Hrem Hpos)
    as [_ ->].
  destruct (discard_seeks_remaining e r remaining Hrem Hpos) as [_ ->]. lia.
Qed.

Lemma read_over (e : Seekable.TarEntry) (p : Uint8Array) (r : R) (remaining : Z) :
  num_sub (Seekable.size e) (Seekable._read e) = Num remaining →
  0 < remaining →
  remaining < Z.of_nat (length p) →
  Seekable.read e p r
  = (count (rs_read r (Z.to_nat remaining)).1,
     set_at0 p (stored (new_Uint8Array (Z.to_nat remaining))
                       (rs_read r (Z.to_nat remaining)).1),
     Seekable.set_read e (num_add (Seekable._read e) (Num remaining)),
     (rs_read r (Z.to_nat remaining)).2).
Proof.
  intros Hrem Hpos Hlt. unfold Seekable.read. rewrite Hrem.
  cbn [num_le num_ge to_index].
  destruct (Z.leb_spec remaining 0) as [Hle|_]; [lia|].
  destruct (Z.leb_spec (Z.of_nat (length p)) remaining) as [Hle|_]; [lia|].
  unfold new_Uint8Array. rewrite length_replicate.
  destruct (rs_read r (Z.to_nat remaining)) as [res r']. reflexivity.
Qed.

Lemma read_within (e : Seekable.TarEntry) (p : Uint8Array) (r : R) (remaining : Z) :
  num_sub (Seekable.size e) (Seekable._read e) = Num remaining →
  0 < remaining →
  Z.of_nat (length p) ≤ remaining →
  Seekable.read e p r
  = (count (rs_read r (length p)).1,
     stored p (rs_read r (length p)).1,
     Seekable.set_read e
       (num_add (Seekable._read e) (Num (Z.of_nat (length p)))),
     (rs_read r (length p)).2).
Proof.
  intros Hrem Hpos Hle. unfold Seekable.read. rewrite Hrem.
  cbn [num_le num_ge].
  destruct (Z.leb_spec remaining 0) as [Hle0|_]; [lia|].
  destruct (Z.leb_spec (Z.of_nat (length p)) remaining) as [_|Hgt]; [|lia].
  destruct (rs_read r (length p)) as [res r']. reflexivity.
Qed.


End SeekableEntry.




Example read_over_a :
  let '(n, p', e', r') :=
    Seekable.read entry_a (new_Uint8Array 10) (after_header 512) in
  n = Some 5%nat ∧ p' = bytes_of "xxxxx" ++ new_Uint8Array 5
  ∧ Seekable._read e' = Num 5 ∧ pos r' = 517
  ∧ take 5 (drop 512 two_files) = bytes_of "xxxxx".
Proof. vm_compute. repeat split; reflexivity. Qed.

(** With the source in memory, when it holds what is left of the body and
    hands it over at once, the bytes stored are those of the body and the
    rest of the buffer is as it was. *)
Lemma read_over_mem (e : Seekable.TarEntry) (p : Uint8Array) (r : MemReader)
    (remaining : Z) :
  num_sub (Seekable.size e) (Seekable._read e) = Num remaining →
  0 < remaining →
  remaining < Z.of_nat (length p) →
  (Z.to_nat remaining ≤ burst r)%nat →
  (Z.to_nat remaining ≤ length (rest_of r))%nat →
  let '(n, p', e', r') := Seekable.read e p r in
  n = Some (Z.to_nat remaining)
  ∧ p' = take (Z.to_nat remaining) (rest_of r) ++ drop (Z.to_nat remaining) p
  ∧ pos r' = pos r + remaining.
Proof.
  intros Hrem Hpos Hlt Hburst Hleft.
  rewrite (read_over e p r remaining Hrem Hpos Hlt).
  cbn [rs_read MemReader_ReadSeeker]. unfold mem_read. fold (rest_of r).
  destruct (rest_of r) as [|x rest] eqn:Hrest; [cbn [length] in Hleft; lia|].
  rewrite Nat.min_l by exact Hburst.
  set (bs := take (Z.to_nat remaining) (x :: rest)).
  assert (length bs = Z.to_nat remaining) as Hbs
    by (unfold bs; rewrite length_take; lia).
  cbn [fst snd count fmap option_fmap option_map stored pos].
  rewrite Hbs. split; [reflexivity|]. split; [|lia].
  unfold set_at0, new_Uint8Array. rewrite Hbs. rewrite drop_replicate.
  replace (Z.to_nat remaining - Z.to_nat remaining)%nat with 0%nat by lia.
  cbn [replicate]. rewrite app_nil_r, Hbs. reflexivity.
Qed.

(** C4, counterexample. The entry of five bytes is read into a buffer of four bytes from a
    source that hands over two bytes at a time: the call resolves to 2 and
    [_read] goes from 0 to 4. *)
Lemma C4_counterexample :
  ¬ (∀ (e : Seekable.TarEntry) (p : Uint8Array) (r : MemReader) (remaining : Z),
       num_sub (Seekable.size e) (Seekable._read e) = Num remaining →
       Z.of_nat (length p) ≤ remaining →
       let '(n, _, e', _) := Seekable.read e p r in
       ∀ k, n = Some k →
         Seekable._read e' = num_add (Seekable._read e) (Num (Z.of_nat k))).
Proof.
  intros Hall.
  specialize (Hall entry_a (new_Uint8Array 4) (after_header 2) 5 eq_refl).
  assert (Seekable.read entry_a (new_Uint8Array 4) (after_header 2)
          = (Some 2%nat, bytes_of "xx" ++ new_Uint8Array 2,
             Seekable.set_read entry_a (Num 4), mkMemReader two_files 514 2)) as Hread
    by (vm_compute; reflexivity).
  rewrite Hread in Hall.
  specialize (Hall ltac:(vm_compute; discriminate) 2%nat eq_refl).
  vm_compute in Hall. discriminate Hall.
Qed.

(** C4, as amended. When the buffer is not longer than what is left of the declared
    size, [read] adds the length of the buffer to [_read], whatever count the
    source then gives; the call resolves to the count of the source for a
    request of that length. *)
Theorem C4_read_counts_the_buffer {R : Type} `{ReadSeeker R}
    (e : Seekable.TarEntry) (p : Uint8Array) (r : R) (remaining : Z) :
  num_sub (Seekable.size e) (Seekable._read e) = Num remaining →
  0 < remaining →
  Z.of_nat (length p) ≤ remaining →
  let asked := rs_read r (length p) in
  let '(n, p', e', r') := Seekable.read e p r in
  Seekable._read e' = num_add (Seekable._read e) (Num (Z.of_nat (length p)))
  ∧ n = count asked.1
  ∧ p' = stored p asked.1
  ∧ r' = asked.2.
Proof.
  intros Hrem Hpos Hle asked.
  rewrite (read_within e p r remaining Hrem Hpos Hle). fold asked.
  repeat split.
Qed.

Lemma C4_read_counts_the_buffer_witness :
  let asked := rs_read (after_header 2) (length (new_Uint8Array 4)) in
  let '(n, p', e', r') :=
    Seekable.read entry_a (new_Uint8Array 4) (after_header 2) in
  Seekable._read e'
  = num_add (Seekable._read entry_a) (Num (Z.of_nat (length (new_Uint8Array 4))))
  ∧ n = count asked.1
  ∧ p' = stored (new_Uint8Array 4) asked.1
  ∧ r' = asked.2.
Proof.
  apply (C4_read_counts_the_buffer entry_a (new_Uint8Array 4) (after_header 2) 5).
  - vm_compute. reflexivity.
  - lia.
  - vm_compute. discriminate.
Defined.

(** ** What a second [discard] does *)

(** C2. Specified: [discard] seeks by what is left of the padded size and
    sets [_read] to the padded size, so that a second [discard] moves the
    source no further.  The code, on the archive of two files: after the
    first [extract ()] the cursor is at 512 and the entry is [a.txt], with a
    padded size of 512.  The caller's [discard ()] moves the cursor to 1024,
    the header of [b.txt], and leaves [_read] at 0.  A second [discard ()]
    moves the cursor to 1536, and so does the one in the next [extract ()],
    which then reads the block of zero bytes and resolves to [null]: [b.txt]
    is lost.  Without the caller's [discard ()] the next [extract ()] gives
    [b.txt]. *)
Theorem C2_second_discard_moves_again :
  Seekable.name <$> Seekable.entry at_entry_a = Some "a.txt"
  ∧ Seekable.entrySize <$> Seekable.entry at_entry_a = Some (Num 512)
  ∧ rs_position (Seekable._reader at_entry_a) = 512
  ∧ rs_position (Seekable._reader (Seekable.discard_current at_entry_a)) = 1024
  ∧ Seekable._read <$> Seekable.entry (Seekable.discard_current at_entry_a)
    = Some (Num 0)
  ∧ rs_position (Seekable._reader
       (Seekable.discard_current (Seekable.discard_current at_entry_a))) = 1536
  ∧ entry_name (Seekable.extract at_entry_a).1 = Some "b.txt"
  ∧ (Seekable.extract (Seekable.discard_current at_entry_a)).1 = Ok None
  ∧ rs_position (Seekable._reader
       (Seekable.extract (Seekable.discard_current at_entry_a)).2) = 2048.
Proof. vm_compute. repeat split; reflexivity. Qed.

(** ** The loop of [discard] ends *)

Lemma next_cases (e e' : Sequential.TarEntry) (reader reader' : ChunkReader)
    (r : result IterResult) :
  Sequential.next e reader = (r, e', reader') →
  Sequential._consumed e' = true
  ∨ (∃ x, r = Throw x)
  ∨ (length reader' < length reader)%nat.
Proof.
  unfold Sequential.next.
  destruct (num_le _ (Num 0)).
  - intros Heq. injection Heq as _ <- _. left. reflexivity.
  - destruct reader as [|values rest]; cbn [chunk_next].
    + intros Heq. injection Heq as <- _ _. right. left. eexists; reflexivity.
    + destruct (num_le _ (Num 0)); intros Heq; injection Heq as _ _ <-;
        right; right; cbn [length]; lia.
Qed.

Lemma discard_loop_total (fuel : nat) :
  ∀ (e : Sequential.TarEntry) (reader : ChunkReader),
    (length reader < fuel)%nat →
    ∃ res, Sequential.discard_loop fuel e reader = Some res.
Proof.
  induction fuel as [|fuel IH]; intros e reader Hfuel; [lia|].
  cbn [Sequential.discard_loop].
  destruct (Sequential._consumed e); [eexists; reflexivity|].
  destruct (Sequential.next e reader) as [[r e'] reader'] eqn:Hnext.
  destruct (next_cases _ _ _ _ _ Hnext) as [Hcons | [[x ->] | Hshorter]].
  - destruct r as [it|x]; [|eexists; reflexivity].
    destruct fuel; cbn [Sequential.discard_loop]; rewrite Hcons;
      eexists; reflexivity.
  - eexists; reflexivity.
  - destruct r as [it|x]; [|eexists; reflexivity].
    apply IH. lia.
Qed.

(** [discard] and [extract] give a result on every entry and source: the
    fuel never runs out. *)
Lemma discard_total (e : Sequential.TarEntry) (reader : ChunkReader) :
  ∃ res, Sequential.discard e reader = Some res.
Proof. apply discard_loop_total. lia. Qed.

Lemma extract_total (u : Sequential.Untar) :
  ∃ res, Sequential.extract u = Some res.
Proof.
  unfold Sequential.extract, Sequential.pass_body.
  destruct (Sequential.entry u) as [e|].
  - destruct (negb (Sequential._consumed e)).
    + destruct (discard_total e (Sequential.reader u)) as [[[r e'] reader'] ->].
      destruct r; eexists; reflexivity.
    + eexists; reflexivity.
  - eexists; reflexivity.
Qed.

(** ** Passing the body of an entry: the chunked source *)

Lemma ceil_div_bounds (s : Z) :
  0 ≤ s →
  0 ≤ ceil_div s 512 ∧ s ≤ 512 * ceil_div s 512 < s + 512.
Proof.
  intros Hs. unfold ceil_div.
  pose proof (Z.div_mod (- s) 512 ltac:(lia)) as Hdm.
  pose proof (Z.mod_pos_bound (- s) 512 ltac:(lia)) as Hb. lia.
Qed.


Section SequentialBody.
Variable s : Z.
Variable q : nat.
Variable reader0 : ChunkReader.
Hypothesis Hs : 0 ≤ s.
Hypothesis Hq : Z.of_nat q = ceil_div s 512.
Hypothesis Hrecords : Forall (fun c => length c = 512%nat) reader0.
Hypothesis Henough : (q ≤ length reader0)%nat.

Local Abbreviation taken := (taken s q reader0).


Lemma next_at_the_end (e : Sequential.TarEntry) (reader : ChunkReader) :
  taken q e reader →
  Sequential.next e reader
  = (Ok (mkIterResult true None), Sequential.set_consumed e true, reader)
  ∧ taken q (Sequential.set_consumed e true) reader.
Proof.
  intros (Hsize & Hpad & Hread & Hm & Hreader & Hcons).
  unfold Sequential.next. rewrite Hpad, Hread. cbn [num_sub num_le].
  destruct (Z.leb_spec (512 * Z.of_nat q - 512 * Z.of_nat q) 0) as [_|Hgt]; [|lia].
  split; [reflexivity|].
  unfold taken. cbn [Sequential.set_consumed Sequential.size Sequential.entrySize
                     Sequential._read Sequential._consumed].
  repeat split; assumption.
Qed.





End SequentialBody.

(** ** Passing the body of an entry: the ReadSeeker source *)

Section SeekableBody.
Context {R : Type} `{ReadSeekerLaws R}.
Variable s : Z.
Variable padded : Z.
Hypothesis Hpadded : s ≤ padded.


End SeekableBody.

(** ** The bytes passed for one entry *)


Lemma sequential_size (block : Uint8Array) :
  Sequential.size (Sequential.new_TarEntry (Sequential._parseHeader block))
  = decodeOctal (subarray block 124 136).
Proof. reflexivity. Qed.

Lemma seekable_size (block : Uint8Array) :
  Seekable.size (Seekable.new_TarEntry (Seekable._parseHeader block))
  = decodeOctal (subarray block 124 136).
Proof. reflexivity. Qed.



Example body_passed_positions :
  rs_position
    (Seekable.discard
       (reads [new_Uint8Array 3; new_Uint8Array 10] entry_a (after_header 512)).1
       (reads [new_Uint8Array 3; new_Uint8Array 10] entry_a (after_header 512)).2)
  = 1024.
Proof. vm_compute. reflexivity. Qed.

(** ** After the end of the archive *)


Lemma discard_loop_consumed (fuel : nat) :
  ∀ (e e' : Sequential.TarEntry) (reader reader' : ChunkReader),
    Sequential.discard_loop fuel e reader = Some (Ok tt, e', reader') →
    Sequential._consumed e' = true.
Proof.
  induction fuel as [|fuel IH]; intros e e' reader reader';
    cbn [Sequential.discard_loop];
    destruct (Sequential._consumed e) eqn:Hcons.
  - intros Heq. injection Heq as <- _. exact Hcons.
  - discriminate.
  - intros Heq. injection Heq as <- _. exact Hcons.
  - destruct (Sequential.next e reader) as [[[it|x] e1] reader1].
    + apply IH.
    + discriminate.
Qed.





Lemma sum_loop_nan (block : Uint8Array) (l : list nat) :
  fold_left (sum_step block) l NaN = NaN.
Proof.
  induction l as [|j l IH]; [reflexivity|].
  cbn [fold_left]. unfold sum_step at 2.
  destruct ((148 <=? j)%nat && (j <? 156)%nat); exact IH.
Qed.

Lemma sum_loop_num (block : Uint8Array) (l : list nat) :
  ∀ acc z, fold_left (sum_step block) l acc = Num z →
    Forall (fun j => (148 <=? j)%nat && (j <? 156)%nat = false →
                     (j < length block)%nat) l.
Proof.
  induction l as [|j l IH]; intros acc z Hsum; [constructor|].
  cbn [fold_left] in Hsum. constructor.
  - intros Hskip. unfold sum_step in Hsum at 2. rewrite Hskip in Hsum.
    unfold index in Hsum. destruct (block !! j) as [b|] eqn:Hb.
    + apply lookup_lt_is_Some. eexists; exact Hb.
    + destruct acc; cbn [num_add] in Hsum; rewrite sum_loop_nan in Hsum;
        discriminate Hsum.
  - apply (IH _ _ Hsum).
Qed.


Lemma skipped_iff (j : nat) :
  (148 <=? j)%nat && (j <? 156)%nat = false ↔ ¬ (148 ≤ j < 156)%nat.
Proof.
  rewrite andb_false_iff, Nat.leb_gt, Nat.ltb_ge. lia.
Qed.















Example ended_archive_positions :
  pos (Seekable._reader seekable_at_end) = 1536
  ∧ pos (Seekable._reader (Seekable.extract seekable_at_end).2) = 2560.
Proof. vm_compute. split; reflexivity. Qed.

(** * Further properties of the decoder *)

(** ** Text fields *)

Lemma string_of_trim (arr : Uint8Array) :
  string_of_list_byte (SequentialTD.trim arr) = decodeString arr.
Proof.
  induction arr as [|b arr IH]; [reflexivity|].
  cbn [SequentialTD.trim decodeString]. destruct (Byte.eqb b x00); [reflexivity|].
  change (String (ascii_of_byte b) (string_of_list_byte (SequentialTD.trim arr))
          = String (fromCharCode b) (decodeString arr)).
  rewrite IH. reflexivity.
Qed.

Lemma trim_nonzero (arr : Uint8Array) :
  Forall (fun b => b ≠ x00) (SequentialTD.trim arr).
Proof.
  induction arr as [|b arr IH]; [constructor|].
  cbn [SequentialTD.trim]. destruct (Byte.eqb b x00) eqn:Hb; [constructor|].
  constructor; [apply Byte.eqb_false, Hb | exact IH].
Qed.

Lemma trim_prefix (arr : Uint8Array) :
  arr = SequentialTD.trim arr
  ∨ ∃ rest, arr = SequentialTD.trim arr ++ x00 :: rest.
Proof.
  induction arr as [|b arr IH]; [left; reflexivity|].
  cbn [SequentialTD.trim]. destruct (Byte.eqb b x00) eqn:Hb.
  - right. exists arr. apply Byte.byte_dec_bl in Hb. subst. reflexivity.
  - destruct IH as [IH | [rest IH]].
    + left. rewrite <- IH. reflexivity.
    + right. exists rest. cbn [app]. rewrite <- IH. reflexivity.
Qed.

(** X1. [decodeString] gives, byte for byte, the part of the field before its
    first zero byte, which is what [trim] cuts out: bytes above 127 are kept
    as they are, nothing after the zero byte is read. *)
Theorem decodeString_before_first_zero (arr : Uint8Array) :
  bytes_of (decodeString arr) = SequentialTD.trim arr
  ∧ Forall (fun b => b ≠ x00) (SequentialTD.trim arr)
  ∧ (arr = SequentialTD.trim arr
     ∨ ∃ rest, arr = SequentialTD.trim arr ++ x00 :: rest).
Proof.
  split; [|split; [apply trim_nonzero | apply trim_prefix]].
  unfold bytes_of. rewrite <- string_of_trim.
  apply list_byte_of_string_of_list_byte.
Qed.

(** ** [parseInt] stops at the first character that is no digit *)

Lemma skip_white_space_app (s1 s2 : string) (c : ascii) :
  is_white_space c = false →
  skip_white_space (s1 +:+ String c s2) = skip_white_space s1 +:+ String c s2.
Proof.
  intros Hc. induction s1 as [|a s1 IH]; simpl.
  - rewrite Hc. reflexivity.
  - destruct (is_white_space a); [exact IH | reflexivity].
Qed.

Lemma parse_digits_app (radix : Z) (s1 s2 : string) (c : ascii) :
  digit_value c = None →
  ∀ acc seen,
    parse_digits radix acc seen (s1 +:+ String c s2)
    = parse_digits radix acc seen s1.
Proof.
  intros Hc. induction s1 as [|a s1 IH]; intros acc seen; simpl.
  - rewrite Hc. reflexivity.
  - destruct (digit_value a) as [d|]; [|reflexivity].
    destruct (d <? radix); [apply IH | reflexivity].
Qed.

Lemma strip_sign_app (s t : string) (c : ascii) :
  c ≠ "-"%char → c ≠ "+"%char →
  strip_sign (s +:+ String c t)
  = ((strip_sign s).1, (strip_sign s).2 +:+ String c t).
Proof.
  intros Hminus Hplus. destruct s as [|a r].
  - destruct c as [[] [] [] [] [] [] [] []]; try reflexivity;
      first [exfalso; apply Hminus; reflexivity
            | exfalso; apply Hplus; reflexivity].
  - destruct a as [[] [] [] [] [] [] [] []]; reflexivity.
Qed.

Lemma parseInt_app (s1 s2 : string) (c : ascii) :
  is_white_space c = false →
  digit_value c = None →
  c ≠ "-"%char → c ≠ "+"%char →
  parseInt (s1 +:+ String c s2) 8 = parseInt s1 8.
Proof.
  intros Hw Hd Hminus Hplus. unfold parseInt.
  rewrite (skip_white_space_app s1 s2 c Hw).
  rewrite (strip_sign_app _ s2 c Hminus Hplus).
  destruct (strip_sign (skip_white_space s1)) as [sign s'].
  cbn [fst snd]. change (8 =? 0) with false. change ((8 <? 2) || (36 <? 8)) with false.
  change (8 =? 16) with false. cbv iota.
  rewrite (parse_digits_app 8 s' s2 c Hd). reflexivity.
Qed.

Lemma string_of_list_byte_app (a b : Uint8Array) :
  string_of_list_byte (a ++ b) = string_of_list_byte a +:+ string_of_list_byte b.
Proof.
  induction a as [|x a IH]; [reflexivity|].
  change (String (ascii_of_byte x) (string_of_list_byte (a ++ b))
          = String (ascii_of_byte x) (string_of_list_byte a +:+ string_of_list_byte b)).
  rewrite IH. reflexivity.
Qed.

(** The text of a whole field is the text before the first zero byte,
    followed by nothing or by the character of code 0. *)
Lemma text_of_field (arr : Uint8Array) :
  string_of_list_byte arr = decodeString arr
  ∨ ∃ rest, string_of_list_byte arr = decodeString arr +:+ String "000" rest.
Proof.
  destruct (trim_prefix arr) as [Heq | [rest Heq]].
  - left. rewrite Heq at 1. apply string_of_trim.
  - right. exists (string_of_list_byte rest). rewrite Heq at 1.
    rewrite string_of_list_byte_app, string_of_trim. reflexivity.
Qed.

Lemma parseInt_of_field (arr : Uint8Array) :
  parseInt (string_of_list_byte arr) 8 = parseInt (decodeString arr) 8.
Proof.
  destruct (text_of_field arr) as [-> | [rest ->]]; [reflexivity|].
  apply parseInt_app; first [reflexivity | discriminate].
Qed.

Lemma decoder_decode_Some (arr : Uint8Array) (text : string) :
  SequentialTD.decoder_decode arr = Some text → text = string_of_list_byte arr.
Proof.
  unfold SequentialTD.decoder_decode. destruct (forallb _ arr); [|discriminate].
  intros Heq. injection Heq as <-. reflexivity.
Qed.

Lemma decoder_decode_ascii (arr : Uint8Array) :
  Forall (fun b => byte_val b < 128) arr →
  SequentialTD.decoder_decode arr = Some (string_of_list_byte arr).
Proof.
  intros Hascii. unfold SequentialTD.decoder_decode.
  assert (forallb (fun b => byte_val b <? 128) arr = true) as ->; [|reflexivity].
  induction Hascii as [|b arr Hb _ IH]; [reflexivity|].
  cbn [forallb]. rewrite IH. apply Z.ltb_lt in Hb. rewrite Hb. reflexivity.
Qed.

Lemma octal_field_Some (arr : Uint8Array) (n : number) :
  SequentialTD.octal_field arr = Some n →
  n = nan_if_empty arr (decodeOctal arr).
Proof.
  unfold SequentialTD.octal_field, nan_if_empty, decodeOctal.
  destruct (SequentialTD.decoder_decode arr) as [text|] eqn:Htext; [|discriminate].
  apply decoder_decode_Some in Htext. subst text.
  cbn [mbind option_bind]. intros Heq. injection Heq as <-.
  rewrite parseInt_of_field. destruct (decodeString arr); reflexivity.
Qed.

(** X2. On a field of bytes below 128 the TextDecoder revision and the first
    revision read the same number, unless the text before the first zero byte
    is empty: then the first revision reads 0 and the TextDecoder revision
    NaN. *)
Theorem octal_field_agrees (arr : Uint8Array) :
  Forall (fun b => byte_val b < 128) arr →
  SequentialTD.octal_field arr
  = Some (if truthy (decodeString arr) then decodeOctal arr else NaN)
  ∧ (truthy (decodeString arr) = false → decodeOctal arr = Num 0).
Proof.
  intros Hascii. split.
  - destruct (SequentialTD.octal_field arr) as [n|] eqn:Hn.
    + rewrite (octal_field_Some arr n Hn). reflexivity.
    + unfold SequentialTD.octal_field in Hn.
      rewrite (decoder_decode_ascii arr Hascii) in Hn. discriminate Hn.
  - unfold decodeOctal. intros ->. reflexivity.
Qed.

Lemma octal_field_agrees_witness :
  SequentialTD.octal_field (bytes_of "0000644" ++ [x00])
  = Some (if truthy (decodeString (bytes_of "0000644" ++ [x00]))
          then decodeOctal (bytes_of "0000644" ++ [x00]) else NaN)
  ∧ (truthy (decodeString (bytes_of "0000644" ++ [x00])) = false →
     decodeOctal (bytes_of "0000644" ++ [x00]) = Num 0).
Proof.
  apply (octal_field_agrees (bytes_of "0000644" ++ [x00])).
  vm_compute. repeat constructor.
Defined.

Lemma decode_trim (arr : Uint8Array) (text : string) :
  SequentialTD.decoder_decode (SequentialTD.trim arr) = Some text →
  text = decodeString arr.
Proof.
  intros Htext. apply decoder_decode_Some in Htext. rewrite Htext.
  apply string_of_trim.
Qed.

Lemma trim_empty (arr : Uint8Array) :
  (0 <? length (SequentialTD.trim arr))%nat = truthy (decodeString arr).
Proof.
  destruct arr as [|b arr]; [reflexivity|].
  cbn [SequentialTD.trim decodeString]. destruct (Byte.eqb b x00); reflexivity.
Qed.

Lemma length_truthy (s : string) :
  (0 <? String.length s)%nat = truthy s.
Proof. destruct s; reflexivity. Qed.

(** A step of the option monad that gave no value. *)
Ltac no_value H := cbn [mbind option_bind] in H; discriminate H.

(** X3. What the TextDecoder revision makes of a header, against the first
    revision: the same name, link name and numbers; an empty owner or group
    is [null] and not the empty text; a numeric field with an empty text is
    NaN and not 0, and so an empty type flag gives no kind. *)
Theorem text_decoder_metadata (header : gmap string Uint8Array)
    (e2 : SequentialTD.TarEntry) :
  SequentialTD.new_TarEntry header = Some e2 →
  let e1 := Sequential.new_TarEntry header in
  let field := Sequential.prop header in
  SequentialTD.name e2 = Sequential.name e1
  ∧ SequentialTD.linkName e2 = Sequential.linkName e1
  ∧ SequentialTD.owner e2
    = (if truthy (Sequential.owner e1) then Some (Sequential.owner e1) else None)
  ∧ SequentialTD.group e2
    = (if truthy (Sequential.group e1) then Some (Sequential.group e1) else None)
  ∧ SequentialTD.mode e2 = nan_if_empty (field "mode") (Sequential.mode e1)
  ∧ SequentialTD.uid e2 = nan_if_empty (field "uid") (Sequential.uid e1)
  ∧ SequentialTD.gid e2 = nan_if_empty (field "gid") (Sequential.gid e1)
  ∧ SequentialTD.size e2 = nan_if_empty (field "size") (Sequential.size e1)
  ∧ SequentialTD.mtime e2 = nan_if_empty (field "mtime") (Sequential.mtime e1)
  ∧ SequentialTD.majorNumber e2
    = nan_if_empty (field "majorNumber") (Sequential.majorNumber e1)
  ∧ SequentialTD.minorNumber e2
    = nan_if_empty (field "minorNumber") (Sequential.minorNumber e1)
  ∧ SequentialTD.type e2
    = FILE_TYPES_at (nan_if_empty (field "type") (decodeOctal (field "type")))
  ∧ SequentialTD.entrySize e2 = ceil_record (SequentialTD.size e2).
Proof.
  intros Hnew e1 field. unfold SequentialTD.new_TarEntry in Hnew.
  fold field in Hnew.
  destruct (SequentialTD.decoder_decode (SequentialTD.trim (field "name")))
    as [_name|] eqn:Hname; [|no_value Hnew].
  apply decode_trim in Hname. cbn [mbind option_bind] in Hnew.
  rewrite !trim_empty in Hnew.
  destruct (if truthy (decodeString (field "prefix"))
            then p ← SequentialTD.decoder_decode (SequentialTD.trim (field "prefix"));
                 Some (p +:+ "/" +:+ _name)
            else Some _name) as [name|] eqn:Hfull;
    [|no_value Hnew].
  assert (name = Sequential.name e1) as Hname1.
  { unfold e1. cbn [Sequential.name Sequential.new_TarEntry]. fold field.
    rewrite length_truthy.
    destruct (truthy (decodeString (field "prefix"))).
    - destruct (SequentialTD.decoder_decode (SequentialTD.trim (field "prefix")))
        as [p|] eqn:Hp; [|no_value Hfull].
      apply decode_trim in Hp. cbn [mbind option_bind] in Hfull.
      injection Hfull as <-. subst. reflexivity.
    - injection Hfull as <-. subst. reflexivity. }
  cbn [mbind option_bind] in Hnew.
  destruct (SequentialTD.octal_field (field "mode")) as [mode|] eqn:Hmode;
    [apply octal_field_Some in Hmode | no_value Hnew].
  destruct (SequentialTD.octal_field (field "uid")) as [uid|] eqn:Huid;
    [apply octal_field_Some in Huid | no_value Hnew].
  destruct (SequentialTD.octal_field (field "gid")) as [gid|] eqn:Hgid;
    [apply octal_field_Some in Hgid | no_value Hnew].
  destruct (SequentialTD.octal_field (field "size")) as [size|] eqn:Hsize;
    [apply octal_field_Some in Hsize | no_value Hnew].
  destruct (SequentialTD.octal_field (field "mtime")) as [mtime|] eqn:Hmtime;
    [apply octal_field_Some in Hmtime | no_value Hnew].
  destruct (SequentialTD.octal_field (field "type")) as [type|] eqn:Htype;
    [apply octal_field_Some in Htype | no_value Hnew].
  destruct (SequentialTD.decoder_decode (SequentialTD.trim (field "linkName")))
    as [linkName|] eqn:Hlink;
    [apply decode_trim in Hlink | no_value Hnew].
  cbn [mbind option_bind] in Hnew. rewrite ?trim_empty in Hnew.
  destruct (if truthy (decodeString (field "owner"))
            then Some <$> SequentialTD.decoder_decode (SequentialTD.trim (field "owner"))
            else Some None) as [owner|] eqn:Howner;
    [|no_value Hnew].
  destruct (if truthy (decodeString (field "group"))
            then Some <$> SequentialTD.decoder_decode (SequentialTD.trim (field "group"))
            else Some None) as [group|] eqn:Hgroup;
    [|no_value Hnew].
  cbn [mbind option_bind] in Hnew.
  destruct (SequentialTD.octal_field (field "majorNumber")) as [major|] eqn:Hmajor;
    [apply octal_field_Some in Hmajor | no_value Hnew].
  destruct (SequentialTD.octal_field (field "minorNumber")) as [minor|] eqn:Hminor;
    [apply octal_field_Some in Hminor | no_value Hnew].
  cbn [mbind option_bind] in Hnew. injection Hnew as <-.
  cbn [SequentialTD.name SequentialTD.linkName SequentialTD.owner
       SequentialTD.group SequentialTD.mode SequentialTD.uid SequentialTD.gid
       SequentialTD.size SequentialTD.mtime SequentialTD.majorNumber
       SequentialTD.minorNumber SequentialTD.type SequentialTD.entrySize].
  assert (owner = if truthy (Sequential.owner e1)
                  then Some (Sequential.owner e1) else None) as Howner1.
  { unfold e1. cbn [Sequential.owner Sequential.new_TarEntry]. fold field.
    destruct (truthy (decodeString (field "owner"))).
    - destruct (SequentialTD.decoder_decode (SequentialTD.trim (field "owner")))
        as [o|] eqn:Ho; cbn [fmap option_fmap option_map] in Howner;
        [|discriminate Howner].
      apply decode_trim in Ho. injection Howner as <-. subst. reflexivity.
    - injection Howner as <-. reflexivity. }
  assert (group = if truthy (Sequential.group e1)
                  then Some (Sequential.group e1) else None) as Hgroup1.
  { unfold e1. cbn [Sequential.group Sequential.new_TarEntry]. fold field.
    destruct (truthy (decodeString (field "group"))).
    - destruct (SequentialTD.decoder_decode (SequentialTD.trim (field "group")))
        as [o|] eqn:Ho; cbn [fmap option_fmap option_map] in Hgroup;
        [|discriminate Hgroup].
      apply decode_trim in Ho. injection Hgroup as <-. subst. reflexivity.
    - injection Hgroup as <-. reflexivity. }
  subst. repeat split; assumption.
Qed.

Lemma text_decoder_metadata_witness :
  ∃ e2, SequentialTD.new_TarEntry (Sequential._parseHeader Archive.file_a) = Some e2
        ∧ SequentialTD.name e2 = "a.txt"
        ∧ SequentialTD.size e2 = Num 5
        ∧ SequentialTD.majorNumber e2 = NaN.
Proof.
  destruct (SequentialTD.new_TarEntry (Sequential._parseHeader Archive.file_a))
    as [e2|] eqn:Hnew.
  - exists e2. split; [reflexivity|].
    destruct (text_decoder_metadata _ e2 Hnew)
      as (Hname & _ & _ & _ & _ & _ & _ & Hsize & _ & Hmajor & _).
    rewrite Hname, Hsize, Hmajor. vm_compute. repeat split; reflexivity.
  - vm_compute in Hnew. discriminate Hnew.
Defined.

(** ** Octal fields, written and read back *)

Lemma octal_digit_facts (d : Z) :
  Archive.octal_digit d ≠ x00
  ∧ digit_value (ascii_of_byte (Archive.octal_digit d)) = Some (d mod 8)
  ∧ is_white_space (ascii_of_byte (Archive.octal_digit d)) = false
  ∧ strip_sign (String (ascii_of_byte (Archive.octal_digit d)) "")
    = (1, String (ascii_of_byte (Archive.octal_digit d)) "").
Proof.
  unfold Archive.octal_digit.
  pose proof (Z.mod_pos_bound d 8 ltac:(lia)) as Hd.
  assert (d mod 8 = 0 ∨ d mod 8 = 1 ∨ d mod 8 = 2 ∨ d mod 8 = 3
          ∨ d mod 8 = 4 ∨ d mod 8 = 5 ∨ d mod 8 = 6 ∨ d mod 8 = 7) as Hcases by lia.
  destruct Hcases as [-> | [-> | [-> | [-> | [-> | [-> | [-> | ->]]]]]]];
    vm_compute; repeat split; discriminate.
Qed.

Lemma octal_nonzero (n : nat) (z : Z) :
  Forall (fun b => b ≠ x00) (Archive.octal n z).
Proof.
  revert z. induction n as [|n IH]; intros z; cbn [Archive.octal]; [constructor|].
  apply Forall_app. split; [apply IH|].
  constructor; [apply octal_digit_facts | constructor].
Qed.

Lemma decodeString_app (a b : Uint8Array) :
  Forall (fun x => x ≠ x00) a →
  decodeString (a ++ b) = string_of_list_byte a +:+ decodeString b.
Proof.
  induction 1 as [|x a Hx _ IH]; [reflexivity|].
  cbn [app decodeString].
  destruct (Byte.eqb x x00) eqn:Heq;
    [apply Byte.byte_dec_bl in Heq; contradiction|].
  rewrite IH. reflexivity.
Qed.

Lemma string_append_assoc (a b c : string) :
  (a +:+ b) +:+ c = a +:+ (b +:+ c).
Proof.
  induction a as [|x a IH]; [reflexivity|].
  change (String x ((a +:+ b) +:+ c) = String x (a +:+ (b +:+ c))).
  rewrite IH. reflexivity.
Qed.

(** The digits written by [octal] are read back by the loop of [parseInt]:
    they add [z] to [acc] shifted by [n] digits. *)
Lemma parse_digits_octal (n : nat) :
  ∀ (z acc : Z) (seen : bool) (tail : string),
    0 ≤ z < 8 ^ Z.of_nat n →
    parse_digits 8 acc seen (string_of_list_byte (Archive.octal n z) +:+ tail)
    = parse_digits 8 (acc * 8 ^ Z.of_nat n + z) (seen || (0 <? n)%nat) tail.
Proof.
  induction n as [|n IH]; intros z acc seen tail Hz.
  - cbn [Archive.octal]. change (8 ^ Z.of_nat 0) with 1 in *.
    assert (z = 0) as -> by lia. rewrite orb_false_r.
    replace (acc * 1 + 0) with acc by lia. reflexivity.
  - cbn [Archive.octal]. rewrite string_of_list_byte_app.
    rewrite string_append_assoc.
    change (string_of_list_byte [Archive.octal_digit z] +:+ tail)
      with (String (ascii_of_byte (Archive.octal_digit z)) tail).
    assert (8 ^ Z.of_nat (S n) = 8 * 8 ^ Z.of_nat n) as Hpow.
    { rewrite Nat2Z.inj_succ, Z.pow_succ_r by lia. reflexivity. }
    rewrite Hpow in *.
    pose proof (Z.div_mod z 8 ltac:(lia)) as Hdm.
    pose proof (Z.mod_pos_bound z 8 ltac:(lia)) as Hmod.
    rewrite (IH (z / 8) acc seen); [|split; [apply Z.div_pos; lia|
      apply Z.div_lt_upper_bound; lia]].
    cbn [parse_digits].
    destruct (octal_digit_facts z) as (_ & -> & _ & _).
    destruct (Z.ltb_spec (z mod 8) 8) as [_|Hge]; [|lia].
    change (0 <? S n)%nat with true. rewrite orb_true_r. f_equal.
    set (p := 8 ^ Z.of_nat n) in *. set (q := z / 8) in *. set (m := z mod 8) in *.
    clearbody p q m. nia.
Qed.

(** The text of octal digits with a zero byte or a space after them is not
    empty, and [parseInt] reads the number from it. *)
Lemma octal_text (n : nat) (z : Z) (t : byte) (rest : Uint8Array) :
  (1 ≤ n)%nat →
  0 ≤ z < 8 ^ Z.of_nat n →
  t = x00 ∨ t = x20 →
  truthy (decodeString (Archive.octal n z ++ t :: rest)) = true
  ∧ parseInt (decodeString (Archive.octal n z ++ t :: rest)) 8 = Num z.
Proof.
  intros Hn Hz Ht.
  rewrite (decodeString_app _ _ (octal_nonzero n z)).
  set (tail := decodeString (t :: rest)).
  assert (tail = "" ∨ ∃ r, tail = String " " r) as Htail.
  { unfold tail. destruct Ht as [-> | ->]; [left; reflexivity|].
    right. eexists. reflexivity. }
  destruct n as [|n]; [lia|].
  assert (∃ a r, string_of_list_byte (Archive.octal (S n) z) +:+ tail = String a r
                 ∧ is_white_space a = false
                 ∧ (∀ u, strip_sign (String a u) = (1, String a u)))
    as (a & r & Htext & Hwhite & Hsign).
  { cbn [Archive.octal].
    destruct (Archive.octal n (z / 8)) as [|b bs] eqn:Hbs.
    - exists (ascii_of_byte (Archive.octal_digit z)), tail.
      destruct (octal_digit_facts z) as (_ & _ & Hw & Hs).
      split; [reflexivity|]. split; [exact Hw|].
      intros u. unfold strip_sign in *.
      destruct (ascii_of_byte (Archive.octal_digit z)) as [[] [] [] [] [] [] [] []];
        first [reflexivity | discriminate Hs].
    - assert (∃ d, b = Archive.octal_digit d) as [d ->].
      { destruct n as [|n']; [discriminate Hbs|]. cbn [Archive.octal] in Hbs.
        destruct (Archive.octal n' (z / 8 / 8)) as [|b' bs'] eqn:Hbs'.
        - injection Hbs as <- _. eexists; reflexivity.
        - clear - Hbs Hbs'. revert b' bs' b bs Hbs Hbs' .
          assert (∀ k y, ∀ b0 l, Archive.octal k y = b0 :: l →
                    ∃ d, b0 = Archive.octal_digit d) as Hhead.
          { induction k as [|k IHk]; intros y b0 l Hk; [discriminate Hk|].
            cbn [Archive.octal] in Hk.
            destruct (Archive.octal k (y / 8)) as [|c cs] eqn:Hc.
            - injection Hk as <- _. eexists; reflexivity.
            - injection Hk as <- _. apply (IHk (y / 8) c cs Hc). }
          intros b' bs' b bs Hbs Hbs'. injection Hbs as <- _.
          apply (Hhead n' (z / 8 / 8) b' bs' Hbs'). }
      eexists _, _.
      destruct (octal_digit_facts d) as (_ & _ & Hw & Hs).
      split; [reflexivity|]. split; [exact Hw|].
      intros u. unfold strip_sign in *.
      destruct (ascii_of_byte (Archive.octal_digit d)) as [[] [] [] [] [] [] [] []];
        first [reflexivity | discriminate Hs]. }
  split; [rewrite Htext; reflexivity|].
  assert (parseInt (string_of_list_byte (Archive.octal (S n) z) +:+ tail) 8
          = parse_digits 8 0 false
              (string_of_list_byte (Archive.octal (S n) z) +:+ tail)) as ->.
  { unfold parseInt. rewrite Htext. cbn [skip_white_space]. rewrite Hwhite.
    rewrite Hsign. change (8 =? 0) with false.
    change ((8 <? 2) || (36 <? 8)) with false. change (8 =? 16) with false.
    cbv iota. destruct (parse_digits 8 0 false (String a r)) as [|v];
      [reflexivity|]. cbn [num_scale]. f_equal. lia. }
  rewrite (parse_digits_octal (S n) z 0 false tail Hz).
  cbn [orb Nat.ltb Nat.leb].
  destruct Htail as [-> | [r' ->]]; cbn [parse_digits digit_value];
    f_equal; lia.
Qed.



(** ** The checksum and its field *)

Lemma sum_loop_ext (b1 b2 : Uint8Array) (l : list nat) :
  Forall (fun j => (148 <=? j)%nat && (j <? 156)%nat = false → b1 !! j = b2 !! j) l →
  ∀ acc, fold_left (sum_step b1) l acc = fold_left (sum_step b2) l acc.
Proof.
  induction 1 as [|j l Hj _ IH]; intros acc; [reflexivity|].
  cbn [fold_left]. rewrite IH. f_equal. unfold sum_step, index.
  destruct ((148 <=? j)%nat && (j <? 156)%nat); [reflexivity|].
  rewrite (Hj eq_refl). reflexivity.
Qed.

(** The loop of [_getChecksum] on blocks that agree outside the checksum
    field. *)
Lemma sum_outside_field (b1 b2 : Uint8Array) :
  (∀ j, (j < 512)%nat → ¬ (148 ≤ j < 156)%nat → b1 !! j = b2 !! j) →
  fold_left (sum_step b1) (seq 0 512) (Num INITIAL_CHECKSUM)
  = fold_left (sum_step b2) (seq 0 512) (Num INITIAL_CHECKSUM).
Proof.
  intros Hsame. apply sum_loop_ext. apply Forall_forall. intros j Hj Hskip.
  apply elem_of_seq in Hj. apply Hsame; [lia | apply skipped_iff, Hskip].
Qed.

(** X5. The sum depends on the bytes outside the checksum field only: two blocks
    that differ in that field alone have the same sum, in both revisions. *)
Theorem getChecksum_outside_field (b1 b2 : Uint8Array) :
  (∀ j, (j < 512)%nat → ¬ (148 ≤ j < 156)%nat → b1 !! j = b2 !! j) →
  Sequential._getChecksum b1 = Sequential._getChecksum b2
  ∧ Seekable._getChecksum b1 = Seekable._getChecksum b2.
Proof.
  intros Hsame.
  change (Seekable._getChecksum b1) with (Sequential._getChecksum b1).
  change (Seekable._getChecksum b2) with (Sequential._getChecksum b2).
  assert (Sequential._getChecksum b1 = Sequential._getChecksum b2) as Heq;
    [|split; exact Heq].
  exact (sum_outside_field b1 b2 Hsame).
Qed.

Lemma getChecksum_outside_field_witness :
  Sequential._getChecksum (<[150%nat:="7"%byte]> Archive.file_a)
  = Sequential._getChecksum Archive.file_a
  ∧ Seekable._getChecksum (<[150%nat:="7"%byte]> Archive.file_a)
    = Seekable._getChecksum Archive.file_a.
Proof.
  apply (getChecksum_outside_field (<[150%nat:="7"%byte]> Archive.file_a) Archive.file_a).
  intros j Hj Hout. apply list_lookup_insert_ne. lia.
Defined.

Lemma weights_le (block : Uint8Array) (l : list nat) :
  weights block l ≤ 255 * Z.of_nat (length l).
Proof.
  induction l as [|j l IH]; [cbn; lia|].
  cbn [weights foldr length]. fold (weights block l).
  assert (weight block j ≤ 255) as Hj.
  { unfold weight. destruct ((148 <=? j)%nat && (j <? 156)%nat); [lia|].
    destruct (block !! j) as [b|]; [apply byte_val_range | lia]. }
  lia.
Qed.

(** The sum of a block of 512 bytes is a number between 256 and 128776: six
    octal digits hold it. *)
Lemma getChecksum_bounds (block : Uint8Array) :
  length block = 512%nat →
  ∃ z, Sequential._getChecksum block = Num z ∧ 256 ≤ z ≤ 128776.
Proof.
  intros Hlen. rewrite (getChecksum_weights block Hlen).
  eexists. split; [reflexivity|].
  pose proof (weights_nonneg block (seq 0 512)) as Hlow.
  assert (weights block (seq 0 512) ≤ 255 * 504) as Hhigh.
  { change (seq 0 512) with (seq 0 148 ++ seq 148 8 ++ seq 156 356).
    rewrite !weights_app.
    pose proof (weights_le block (seq 0 148)) as H1.
    pose proof (weights_le block (seq 156 356)) as H2.
    rewrite length_seq in H1, H2.
    assert (weights block (seq 148 8) = 0) as -> by reflexivity.
    lia. }
  unfold INITIAL_CHECKSUM. lia.
Qed.

Lemma octal_length (n : nat) (z : Z) : length (Archive.octal n z) = n.
Proof.
  revert z. induction n as [|n IH]; intros z; [reflexivity|].
  cbn [Archive.octal]. rewrite length_app, IH. cbn [length]. lia.
Qed.

Lemma parseInt_octal_field (z : Z) :
  0 ≤ z < 8 ^ 6 →
  parseInt (decodeString (Archive.octal 6 z ++ [x00; x20])) 8 = Num z.
Proof.
  intros Hz.
  apply (octal_text 6 z x00 [x20] ltac:(lia) Hz ltac:(left; reflexivity)).
Qed.

Lemma seal_length (block : Uint8Array) :
  length block = 512%nat → length (Archive.seal block) = 512%nat.
Proof.
  intros Hlen. unfold Archive.seal.
  rewrite !length_app, length_take, length_drop, octal_length, Hlen. reflexivity.
Qed.

Lemma seal_outside_field (block : Uint8Array) (j : nat) :
  length block = 512%nat →
  ¬ (148 ≤ j < 156)%nat →
  Archive.seal block !! j = block !! j.
Proof.
  intros Hlen Hout. unfold Archive.seal.
  destruct (decide (j < 148)%nat) as [Hlt|Hge].
  - rewrite lookup_app_l by (rewrite length_take; lia).
    apply lookup_take_lt. exact Hlt.
  - rewrite lookup_app_r by (rewrite length_take; lia).
    rewrite length_take, Hlen.
    rewrite lookup_app_r by (rewrite octal_length; lia).
    rewrite octal_length.
    rewrite lookup_app_r by (cbn [length]; lia). cbn [length].
    rewrite lookup_drop. f_equal. lia.
Qed.

Lemma seal_field (block : Uint8Array) :
  length block = 512%nat →
  subarray (Archive.seal block) 148 156
  = Archive.octal 6 (Archive.blocksum block) ++ [x00; x20].
Proof.
  intros Hlen. unfold subarray, Archive.seal.
  rewrite drop_app_length' by (rewrite length_take; lia).
  rewrite app_assoc. apply take_app_length'.
  rewrite length_app, octal_length. reflexivity.
Qed.

Lemma seal_after_field (block : Uint8Array) (n : nat) :
  length block = 512%nat → (156 ≤ n)%nat →
  drop n (Archive.seal block) = drop n block.
Proof.
  intros Hlen Hn. unfold Archive.seal.
  rewrite !app_assoc.
  rewrite drop_app_ge
    by (rewrite !length_app, length_take, octal_length; cbn [length]; lia).
  rewrite !length_app, length_take, octal_length, Hlen. cbn [length].
  rewrite drop_drop. f_equal. lia.
Qed.

Lemma starts_with_ustar (arr : Uint8Array) (n : nat) :
  (5 ≤ n)%nat →
  take 5 arr = bytes_of "ustar" →
  (indexOf (decodeString (take n arr)) "ustar" =? 0) = true.
Proof.
  intros Hn Hmagic.
  destruct arr as [|b1 [|b2 [|b3 [|b4 [|b5 rest]]]]]; try discriminate Hmagic.
  injection Hmagic as -> -> -> -> ->.
  do 5 (destruct n as [|n]; [lia|]).
  change ((indexOf (String "u" (String "s" (String "t" (String "a" (String "r"
             (decodeString (take n rest))))))) "ustar" =? 0) = true).
  destruct (decodeString (take n rest)); reflexivity.
Qed.

(** X6. A block of 512 bytes whose magic is [ustar], once the octal of its sum
    is written into the checksum field (six digits, a zero byte and a
    space), is taken for a header by both revisions, whatever its other
    bytes. *)
Theorem sealed_header_accepted (block : Uint8Array) :
  length block = 512%nat →
  take 5 (drop 257 block) = bytes_of "ustar" →
  Sequential.check_block (Archive.seal block)
  = Ok (Some (Sequential._parseHeader (Archive.seal block)))
  ∧ Seekable.check_block (Archive.seal block)
    = Ok (Some (Seekable._parseHeader (Archive.seal block))).
Proof.
  intros Hlen Hmagic.
  destruct (getChecksum_bounds block Hlen) as (z & Hsum & Hz).
  assert (Sequential._getChecksum (Archive.seal block) = Num z) as Hsealed.
  { rewrite <- Hsum. apply (sum_outside_field (Archive.seal block) block).
    intros j _ Hout. apply seal_outside_field; assumption. }
  assert (Archive.blocksum block = z) as Hblocksum
    by (unfold Archive.blocksum; rewrite Hsum; reflexivity).
  assert (num_seq (parseInt (decodeString (subarray (Archive.seal block) 148 156)) 8)
                  (Sequential._getChecksum (Archive.seal block)) = true) as Hfield.
  { rewrite (seal_field block Hlen), Hblocksum, Hsealed.
    rewrite parseInt_octal_field by (change (8 ^ 6) with 262144; lia).
    cbn [num_seq]. apply Z.eqb_refl. }
  split.
  - unfold Sequential.check_block.
    change (Sequential.prop (Sequential._parseHeader (Archive.seal block)) "checksum")
      with (subarray (Archive.seal block) 148 156).
    change (Sequential.prop (Sequential._parseHeader (Archive.seal block)) "ustar")
      with (subarray (Archive.seal block) 257 265).
    rewrite Hfield. cbn [negb]. unfold subarray.
    rewrite (seal_after_field block 257 Hlen) by lia.
    rewrite (starts_with_ustar (drop 257 block) (265 - 257)) by (assumption || lia).
    reflexivity.
  - unfold Seekable.check_block.
    change (Seekable._getChecksum (Archive.seal block))
      with (Sequential._getChecksum (Archive.seal block)).
    rewrite Hfield. cbn [negb]. unfold subarray.
    rewrite (seal_after_field block 257 Hlen) by lia.
    rewrite (starts_with_ustar (drop 257 block) (263 - 257)) by (assumption || lia).
    reflexivity.
Qed.

Lemma sealed_header_accepted_witness :
  Sequential.check_block (Archive.seal Archive.file_b)
  = Ok (Some (Sequential._parseHeader (Archive.seal Archive.file_b)))
  ∧ Seekable.check_block (Archive.seal Archive.file_b)
    = Ok (Some (Seekable._parseHeader (Archive.seal Archive.file_b))).
Proof.
  apply (sealed_header_accepted Archive.file_b).
  - vm_compute. reflexivity.
  - vm_compute. reflexivity.
Defined.

(** X7. A chunk shorter than 512 bytes, such as the last chunk of a cut archive,
    has no sum: the first revision answers it with the checksum error, even
    when its bytes are all zero. *)
Theorem short_block_checksum_error (block : Uint8Array) :
  (length block < 512)%nat →
  Sequential._getChecksum block = NaN
  ∧ Sequential.check_block block = Throw ChecksumError.
Proof.
  intros Hshort.
  assert (Sequential._getChecksum block = NaN) as Hnan.
  { destruct (Sequential._getChecksum block) as [|z] eqn:Hsum; [reflexivity|].
    unfold Sequential._getChecksum in Hsum.
    change (fold_left (sum_step block) (seq 0 512) (Num INITIAL_CHECKSUM) = Num z)
      in Hsum.
    pose proof (sum_loop_num block _ _ _ Hsum) as Hall.
    rewrite Forall_forall in Hall.
    specialize (Hall 511%nat ltac:(apply elem_of_seq; lia) eq_refl). lia. }
  split; [exact Hnan|].
  unfold Sequential.check_block. rewrite Hnan.
  destruct (parseInt _ 8); reflexivity.
Qed.

Lemma short_block_checksum_error_witness :
  Sequential._getChecksum (new_Uint8Array 100) = NaN
  ∧ Sequential.check_block (new_Uint8Array 100) = Throw ChecksumError.
Proof.
  apply (short_block_checksum_error (new_Uint8Array 100)).
  unfold new_Uint8Array. rewrite length_replicate. lia.
Defined.

(** ** The first and the ReadSeeker revision on the same block *)

Lemma indexOf_prefix (s needle : string) :
  (indexOf s needle =? 0) = String.prefix needle s.
Proof.
  destruct (String.prefix needle s) eqn:Hprefix.
  - apply Z.eqb_eq. unfold indexOf. destruct s as [|b s'].
    + destruct needle; [reflexivity | discriminate Hprefix].
    + cbn [String.index]. rewrite Hprefix. reflexivity.
  - apply Z.eqb_neq. intros H0. apply indexOf_0_prefix in H0. congruence.
Qed.

Lemma prefix_decode_take (p : string) :
  ∀ (n : nat) (arr : Uint8Array),
    (String.length p ≤ n)%nat →
    String.prefix p (decodeString (take n arr)) = String.prefix p (decodeString arr).
Proof.
  induction p as [|a p IH]; intros n arr Hn.
  - destruct (decodeString (take n arr)), (decodeString arr); reflexivity.
  - cbn [String.length] in Hn. destruct n as [|n]; [lia|].
    destruct arr as [|b arr]; [reflexivity|].
    cbn [take decodeString]. destruct (Byte.eqb b x00); [reflexivity|].
    cbn [String.prefix]. destruct (ascii_dec a (fromCharCode b)); [|reflexivity].
    apply IH. lia.
Qed.

(** What the ReadSeeker revision answers, from what the first revision
    answers on the same block. *)
Lemma check_block_cases (block : Uint8Array) :
  Seekable.check_block block
  = match Sequential.check_block block with
    | Ok None => Ok None
    | Ok (Some _) => Ok (Some (Seekable._parseHeader block))
    | Throw (Error "Checksum error") => Throw ChecksumError
    | Throw _ => Throw (ReferenceError "magic")
    end
  ∧ (∀ h, Sequential.check_block block ≠ Throw (ReferenceError h)
          ∧ Sequential.check_block block ≠ Throw (TypeError h))
  ∧ (∀ m, Sequential.check_block block = Throw (Error m) →
       m = "Checksum error"
       ∨ ∃ magic, m = "Unsupported archive format: " +:+ magic).
Proof.
  unfold Seekable.check_block, Sequential.check_block.
  change (Sequential.prop (Sequential._parseHeader block) "checksum")
    with (subarray block 148 156).
  change (Sequential.prop (Sequential._parseHeader block) "ustar")
    with (subarray block 257 265).
  change (Seekable._getChecksum block) with (Sequential._getChecksum block).
  rewrite !indexOf_prefix. unfold subarray.
  rewrite (prefix_decode_take "ustar" (263 - 257) (drop 257 block)) by (cbn; lia).
  rewrite (prefix_decode_take "ustar" (265 - 257) (drop 257 block)) by (cbn; lia).
  destruct (num_seq (parseInt _ 8) (Sequential._getChecksum block)); cbn [negb].
  - destruct (String.prefix "ustar" (decodeString (drop 257 block))) eqn:Hp;
      cbn [negb].
    + split; [reflexivity|]. split; [split; discriminate|]. discriminate.
    + split; [reflexivity|]. split; [split; discriminate|].
      intros m Hm. right. injection Hm as <-. eexists. reflexivity.
  - destruct (num_seq (Sequential._getChecksum block) (Num INITIAL_CHECKSUM)).
    + split; [reflexivity|]. split; [split; discriminate | discriminate].
    + split; [reflexivity|]. split; [split; discriminate|].
      intros m Hm. left. injection Hm as <-. reflexivity.
Qed.

(** X8. The two revisions decide alike on every block: the same blocks are
    headers, ends of the archive and checksum errors; where the first
    revision reports the format, the ReadSeeker revision raises its
    reference error; and from a header both decode the same metadata. *)
Theorem revisions_agree (block : Uint8Array) :
  is_header (Seekable.check_block block) = is_header (Sequential.check_block block)
  ∧ (Seekable.check_block block = Ok None ↔ Sequential.check_block block = Ok None)
  ∧ (Seekable.check_block block = Throw ChecksumError
     ↔ Sequential.check_block block = Throw ChecksumError)
  ∧ (Seekable.check_block block = Throw (ReferenceError "magic")
     ↔ ∃ magic, Sequential.check_block block = Throw (UnsupportedFormatError magic))
  ∧ (let e1 := Sequential.new_TarEntry (Sequential._parseHeader block) in
     let e3 := Seekable.new_TarEntry (Seekable._parseHeader block) in
     Seekable.name e3 = Sequential.name e1
     ∧ Seekable.mode e3 = Sequential.mode e1
     ∧ Seekable.uid e3 = Sequential.uid e1
     ∧ Seekable.gid e3 = Sequential.gid e1
     ∧ Seekable.size e3 = Sequential.size e1
     ∧ Seekable.mtime e3 = Sequential.mtime e1
     ∧ Seekable.type e3 = Sequential.type e1
     ∧ Seekable.linkName e3 = Sequential.linkName e1
     ∧ Seekable.owner e3 = Sequential.owner e1
     ∧ Seekable.group e3 = Sequential.group e1
     ∧ Seekable.majorNumber e3 = Sequential.majorNumber e1
     ∧ Seekable.minorNumber e3 = Sequential.minorNumber e1
     ∧ Seekable.entrySize e3 = Sequential.entrySize e1).
Proof.
  destruct (check_block_cases block) as (Heq & Hnoref & Herr).
  assert (∀ P Q : Prop, P → Q → (P ↔ Q)) as Hboth by tauto.
  assert (∀ P Q : Prop, ¬ P → ¬ Q → (P ↔ Q)) as Hneither by tauto.
  split; [|split; [|split; [|split]]].
  - rewrite Heq. destruct (Sequential.check_block block) as [[h|]|[m|h|m]];
      try reflexivity.
    destruct (Herr m eq_refl) as [-> | [magic ->]]; reflexivity.
  - rewrite Heq. destruct (Sequential.check_block block) as [[h|]|[m|h|m]];
      try (apply Hboth; reflexivity); try (apply Hneither; discriminate).
    destruct (Herr m eq_refl) as [-> | [magic ->]]; apply Hneither; discriminate.
  - rewrite Heq. destruct (Sequential.check_block block) as [[h|]|[m|h|m]];
      try (apply Hboth; reflexivity); try (apply Hneither; discriminate).
    destruct (Herr m eq_refl) as [-> | [magic ->]];
      [apply Hboth; reflexivity | apply Hneither; discriminate].
  - rewrite Heq. destruct (Sequential.check_block block) as [[h|]|[m|h|m]].
    + apply Hneither; [discriminate | intros [magic Hm]; discriminate Hm].
    + apply Hneither; [discriminate | intros [magic Hm]; discriminate Hm].
    + destruct (Herr m eq_refl) as [-> | [magic ->]].
      * apply Hneither; [discriminate | intros [magic Hm]; discriminate Hm].
      * apply Hboth; [reflexivity | exists magic; reflexivity].
    + exfalso. apply (proj1 (Hnoref h)). reflexivity.
    + exfalso. apply (proj2 (Hnoref m)). reflexivity.
  - repeat split; reflexivity.
Qed.

(** ** The chunked source: draining an entry, and a source cut short *)

(** A fresh entry has taken no record yet. *)
Lemma fresh_taken (block : Uint8Array) (s : Z) (q : nat) (reader0 : ChunkReader) :
  decodeOctal (subarray block 124 136) = Num s →
  Z.of_nat q = ceil_div s 512 →
  taken s q reader0 0
    (Sequential.new_TarEntry (Sequential._parseHeader block)) reader0.
Proof.
  intros Hsize Hq.
  set (e := Sequential.new_TarEntry (Sequential._parseHeader block)).
  assert (Sequential.size e = Num s) as Hsz
    by (unfold e; rewrite sequential_size; exact Hsize).
  unfold taken. split; [exact Hsz|]. split.
  - change (Sequential.entrySize e) with (ceil_record (Sequential.size e)).
    rewrite Hsz. cbn [ceil_record]. f_equal. unfold RECORD_SIZE. lia.
  - split; [reflexivity|]. split; [lia|]. split; [reflexivity|].
    intros Hcons. discriminate Hcons.
Qed.

(** Records of 512 bytes, joined. *)
Lemma concat_take_records (reader : ChunkReader) :
  ∀ q : nat,
    Forall (fun c => length c = 512%nat) (take q reader) →
    concat (take q reader) = take (512 * q) (concat reader).
Proof.
  induction reader as [|c reader IH]; intros q Hrecords.
  - rewrite take_nil. cbn [concat]. rewrite take_nil. reflexivity.
  - destruct q as [|q].
    + rewrite Nat.mul_0_r, !take_0. reflexivity.
    + rewrite firstn_cons in Hrecords. apply Forall_cons in Hrecords as [Hc Hrest].
      cbn beta in Hc.
      rewrite firstn_cons. cbn [concat]. rewrite take_app, Hc, (IH q Hrest).
      rewrite (take_ge c) by lia. f_equal. f_equal. lia.
Qed.

Section SequentialRecords.
Variable s : Z.
Variable q : nat.
Variable reader0 : ChunkReader.
Hypothesis Hs : 0 ≤ s.
Hypothesis Hq : Z.of_nat q = ceil_div s 512.
Hypothesis Hrecords : Forall (fun c => length c = 512%nat) (take q reader0).

Local Abbreviation at_record := (taken s q reader0).

Lemma record_length (m : nat) (c : Uint8Array) :
  (m < q)%nat → reader0 !! m = Some c → length c = 512%nat.
Proof.
  intros Hlt Hc.
  apply (Forall_lookup_1 (fun c => length c = 512%nat) (take q reader0) m c Hrecords).
  rewrite lookup_take_lt by exact Hlt. exact Hc.
Qed.

(** One pull inside the body: the chunk, cut to what is left of the declared
    size. *)
Lemma next_record (m : nat) (e : Sequential.TarEntry) (reader : ChunkReader)
    (c : Uint8Array) :
  at_record m e reader → (m < q)%nat → reader0 !! m = Some c →
  Sequential.next e reader
  = (Ok (mkIterResult false (Some (take (Z.to_nat (s - 512 * Z.of_nat m)) c))),
     Sequential.set_read e (Num (512 * Z.of_nat (S m))),
     drop (S m) reader0)
  ∧ at_record (S m) (Sequential.set_read e (Num (512 * Z.of_nat (S m))))
          (drop (S m) reader0)
  ∧ Sequential._consumed e = false.
Proof.
  intros (Hsize & Hpad & Hread & Hm & Hreader & Hcons) Hlt Hc.
  assert (Sequential._consumed e = false) as Hfalse.
  { destruct (Sequential._consumed e); [|reflexivity].
    specialize (Hcons eq_refl). lia. }
  pose proof (record_length m c Hlt Hc) as Hlen.
  assert (reader = c :: drop (S m) reader0) as Hcons'.
  { rewrite Hreader. apply drop_S. exact Hc. }
  pose proof (ceil_div_bounds s Hs) as Hceil.
  unfold Sequential.next. rewrite Hpad, Hread, Hsize. cbn [num_sub num_le].
  destruct (Z.leb_spec (512 * Z.of_nat q - 512 * Z.of_nat m) 0) as [Hle|_]; [lia|].
  rewrite Hcons'. cbn [chunk_next].
  destruct (Z.leb_spec (s - 512 * Z.of_nat m) 0) as [Hle|_]; [lia|].
  cbn [num_lt num_add to_index]. rewrite Hlen.
  assert ((if s - 512 * Z.of_nat m <? Z.of_nat 512
           then subarray c 0 (Z.to_nat (s - 512 * Z.of_nat m)) else c)
          = take (Z.to_nat (s - 512 * Z.of_nat m)) c) as ->.
  { destruct (Z.ltb_spec (s - 512 * Z.of_nat m) (Z.of_nat 512)) as [Hcut|Hall].
    - unfold subarray. rewrite Nat.sub_0_r. reflexivity.
    - symmetry. apply take_ge. lia. }
  assert (Num (512 * Z.of_nat m + Z.of_nat 512) = Num (512 * Z.of_nat (S m))) as ->
    by (f_equal; lia).
  split; [reflexivity|]. split; [|exact Hfalse].
  unfold taken. cbn [Sequential.set_read Sequential.size Sequential.entrySize
                     Sequential._read Sequential._consumed].
  repeat split; try assumption; try lia.
  rewrite Hfalse. discriminate.
Qed.

(** One pull when the source is at its end inside the body. *)
Lemma next_cut_short (m : nat) (e : Sequential.TarEntry) :
  at_record m e [] → (m < q)%nat →
  Sequential.next e []
  = (Throw (TypeError "Cannot read properties of null"), e, []).
Proof.
  intros (Hsize & Hpad & Hread & Hm & Hreader & Hcons) Hlt.
  unfold Sequential.next. rewrite Hpad, Hread. cbn [num_sub num_le].
  destruct (Z.leb_spec (512 * Z.of_nat q - 512 * Z.of_nat m) 0) as [Hle|_]; [lia|].
  cbn [chunk_next]. reflexivity.
Qed.

(** Draining from the record [m] on gives the rest of the declared bytes. *)
Lemma drain_loop_taken (n : nat) :
  (q ≤ length reader0)%nat →
  ∀ (m fuel : nat) (e : Sequential.TarEntry) (reader : ChunkReader),
    at_record m e reader → (q - m = n)%nat → (n < fuel)%nat →
    ∃ bufs e',
      Sequential.drain_loop fuel e reader
      = Some (bufs, Ok tt, e', drop q reader0)
      ∧ concat bufs
        = take (Z.to_nat (s - 512 * Z.of_nat m))
               (concat (take (q - m) (drop m reader0)))
      ∧ Sequential._consumed e' = true.
Proof.
  intros Henough. induction n as [|n IH]; intros m fuel e reader Htaken Hn Hfuel.
  - assert (m = q) as -> by (destruct Htaken as (_ & _ & _ & ? & _); lia).
    assert (reader = drop q reader0) as Hreader by apply Htaken.
    destruct fuel as [|fuel]; [lia|].
    destruct (next_at_the_end s q reader0 Henough e reader Htaken) as [Hnext _].
    exists [], (Sequential.set_consumed e true).
    cbn [Sequential.drain_loop]. rewrite Hnext. cbn [done value].
    rewrite Hreader. split; [reflexivity|]. split; [|reflexivity].
    rewrite Nat.sub_diag, take_0. cbn [concat]. rewrite take_nil. reflexivity.
  - assert (m < q)%nat as Hlt by lia.
    destruct (lookup_lt_is_Some_2 reader0 m ltac:(lia)) as [c Hc].
    destruct (next_record m e reader c Htaken Hlt Hc) as (Hnext & Htaken' & _).
    destruct fuel as [|fuel]; [lia|].
    destruct (IH (S m) fuel _ _ Htaken' ltac:(lia) ltac:(lia))
      as (bufs & e' & Hloop & Hbufs & Hcons).
    eexists (_ :: bufs), e'.
    cbn [Sequential.drain_loop]. rewrite Hnext. cbn [done value]. rewrite Hloop.
    split; [reflexivity|]. split; [|exact Hcons].
    cbn [concat]. rewrite Hbufs.
    rewrite (drop_S reader0 c m Hc).
    replace (q - m)%nat with (S (q - S m)) by lia.
    cbn [take concat]. rewrite take_app.
    rewrite (record_length m c Hlt Hc). f_equal. f_equal. lia.
Qed.

(** Discarding from the record [m] on ends after the last record of the
    body, whatever follows it in the source. *)
Lemma discard_loop_records (n : nat) :
  (q ≤ length reader0)%nat →
  ∀ (m fuel : nat) (e : Sequential.TarEntry) (reader : ChunkReader),
    at_record m e reader → (q - m = n)%nat → (n < fuel)%nat →
    ∃ e', Sequential.discard_loop fuel e reader = Some (Ok tt, e', drop q reader0).
Proof.
  intros Henough. induction n as [|n IH]; intros m fuel e reader Htaken Hn Hfuel.
  - assert (m = q) as -> by (destruct Htaken as (_ & _ & _ & ? & _); lia).
    assert (reader = drop q reader0) as Hreader by apply Htaken.
    destruct fuel as [|fuel]; [lia|].
    cbn [Sequential.discard_loop]. destruct (Sequential._consumed e) eqn:Hcons.
    + exists e. rewrite Hreader. reflexivity.
    + destruct (next_at_the_end s q reader0 Henough e reader Htaken) as [-> _].
      exists (Sequential.set_consumed e true). rewrite Hreader.
      destruct fuel; reflexivity.
  - assert (m < q)%nat as Hlt by lia.
    destruct (lookup_lt_is_Some_2 reader0 m ltac:(lia)) as [c Hc].
    destruct (next_record m e reader c Htaken Hlt Hc) as (Hnext & Htaken' & Hcons).
    destruct fuel as [|fuel]; [lia|].
    cbn [Sequential.discard_loop]. rewrite Hcons, Hnext.
    apply (IH (S m) fuel _ _ Htaken'); lia.
Qed.

(** Discarding from the record [m] on, when the source ends before the last
    record of the body. *)
Lemma discard_loop_cut_short (n : nat) :
  (length reader0 < q)%nat →
  ∀ (m fuel : nat) (e : Sequential.TarEntry) (reader : ChunkReader),
    at_record m e reader → (length reader0 - m = n)%nat → (m ≤ length reader0)%nat →
    (n < fuel)%nat →
    ∃ e',
      Sequential.discard_loop fuel e reader
      = Some (Throw (TypeError "Cannot read properties of null"), e', [])
      ∧ Sequential._consumed e' = false.
Proof.
  intros Hshort. induction n as [|n IH];
    intros m fuel e reader Htaken Hn Hm Hfuel.
  - assert (m = length reader0) as Hend by lia.
    assert (reader = []) as ->.
    { destruct Htaken as (_ & _ & _ & _ & -> & _). apply drop_ge. lia. }
    assert (Sequential._consumed e = false) as Hcons.
    { destruct (Sequential._consumed e) eqn:Hc; [|reflexivity].
      destruct Htaken as (_ & _ & _ & _ & _ & Hq'). specialize (Hq' Hc). lia. }
    pose proof (next_cut_short m e Htaken ltac:(lia)) as Hnext.
    destruct fuel as [|fuel]; [lia|].
    exists e. cbn [Sequential.discard_loop]. rewrite Hcons, Hnext.
    split; reflexivity.
  - destruct (lookup_lt_is_Some_2 reader0 m ltac:(lia)) as [c Hc].
    destruct (next_record m e reader c Htaken ltac:(lia) Hc)
      as (Hnext & Htaken' & Hcons).
    destruct fuel as [|fuel]; [lia|].
    cbn [Sequential.discard_loop]. rewrite Hcons, Hnext.
    apply (IH (S m) fuel _ _ Htaken'); lia.
Qed.

End SequentialRecords.

(** X9. Iterating over a fresh entry, on a source of 512-byte chunks that holds
    the whole padded body, hands over exactly the declared bytes of the body,
    in order, leaves the source after the last record of the body and marks
    the entry as consumed. *)
Theorem drain_gives_the_body (block : Uint8Array) (s : Z) (q : nat)
    (reader0 : ChunkReader) :
  decodeOctal (subarray block 124 136) = Num s →
  0 ≤ s →
  Z.of_nat q = ceil_div s 512 →
  Forall (fun c => length c = 512%nat) (take q reader0) →
  (q ≤ length reader0)%nat →
  ∃ bufs e',
    Sequential.drain (sequential_entry block) reader0
    = Some (bufs, Ok tt, e', drop q reader0)
    ∧ concat bufs = take (Z.to_nat s) (concat reader0)
    ∧ Sequential._consumed e' = true.
Proof.
  intros Hsize Hs Hq Hrecords Henough.
  destruct (drain_loop_taken s q reader0 Hs Hq Hrecords q Henough
              0 (S (length reader0)) _ reader0
              (fresh_taken block s q reader0 Hsize Hq) ltac:(lia) ltac:(lia))
    as (bufs & e' & Hloop & Hbufs & Hcons).
  exists bufs, e'. split; [exact Hloop|]. split; [|exact Hcons].
  rewrite Hbufs, Nat.sub_0_r, drop_0.
  rewrite (concat_take_records reader0 q Hrecords), take_take.
  pose proof (ceil_div_bounds s Hs) as Hceil. f_equal. lia.
Qed.

Lemma drain_gives_the_body_witness :
  ∃ bufs e',
    Sequential.drain (sequential_entry Archive.file_a)
      [Archive.body 5 "x"; Archive.file_b]
    = Some (bufs, Ok tt, e', drop 1 [Archive.body 5 "x"; Archive.file_b])
    ∧ concat bufs
      = take (Z.to_nat 5) (concat [Archive.body 5 "x"; Archive.file_b])
    ∧ Sequential._consumed e' = true.
Proof.
  apply (drain_gives_the_body Archive.file_a 5 1
           [Archive.body 5 "x"; Archive.file_b]).
  - vm_compute. reflexivity.
  - lia.
  - vm_compute. reflexivity.
  - constructor; [vm_compute; reflexivity | constructor].
  - cbn [length]. lia.
Defined.

(** X10. When the source of 512-byte chunks ends before the last record of the
    body of the current entry, the next [extract ()] does not resolve: it
    throws the TypeError of reading the length of [null], with the source
    taken to its end and the entry still not consumed. *)
Theorem body_cut_short_throws (block : Uint8Array) (s : Z) (q : nat)
    (reader0 : ChunkReader) :
  decodeOctal (subarray block 124 136) = Num s →
  0 ≤ s →
  Z.of_nat q = ceil_div s 512 →
  Forall (fun c => length c = 512%nat) reader0 →
  (length reader0 < q)%nat →
  ∃ e',
    Sequential.extract (Sequential.mkUntar (Some (sequential_entry block)) reader0)
    = Some (Throw (TypeError "Cannot read properties of null"),
            Sequential.mkUntar (Some e') [])
    ∧ Sequential._consumed e' = false.
Proof.
  intros Hsize Hs Hq Hrecords Hshort.
  assert (Forall (fun c => length c = 512%nat) (take q reader0)) as Hrecords'
    by (rewrite take_ge by lia; exact Hrecords).
  destruct (discard_loop_cut_short s q reader0 Hs Hq Hrecords' (length reader0)
              Hshort 0 (S (length reader0)) _ reader0
              (fresh_taken block s q reader0 Hsize Hq)
              ltac:(lia) ltac:(lia) ltac:(lia))
    as (e' & Hloop & Hcons).
  exists e'. split; [|exact Hcons].
  unfold Sequential.extract, Sequential.pass_body, Sequential.discard.
  cbn [Sequential.entry Sequential.reader].
  change (Sequential._consumed (sequential_entry block)) with false.
  cbn [negb]. unfold sequential_entry. rewrite Hloop. reflexivity.
Qed.

Lemma body_cut_short_throws_witness :
  ∃ e',
    Sequential.extract
      (Sequential.mkUntar (Some (sequential_entry Archive.file_a)) [])
    = Some (Throw (TypeError "Cannot read properties of null"),
            Sequential.mkUntar (Some e') [])
    ∧ Sequential._consumed e' = false.
Proof.
  apply (body_cut_short_throws Archive.file_a 5 1 []).
  - vm_compute. reflexivity.
  - lia.
  - vm_compute. reflexivity.
  - constructor.
  - cbn [length]. lia.
Defined.

(** ** An entry whose size cannot be read *)

Lemma unreadable_size_loops (reader : ChunkReader) :
  ∀ (fuel : nat) (e : Sequential.TarEntry),
    Sequential.size e = NaN → Sequential.entrySize e = NaN →
    Sequential._consumed e = false →
    (length reader < fuel)%nat →
    ∃ e',
      Sequential.drain_loop fuel e reader
      = Some (reader, Throw (TypeError "Cannot read properties of null"), e', [])
      ∧ Sequential.discard_loop fuel e reader
        = Some (Throw (TypeError "Cannot read properties of null"), e', [])
      ∧ Sequential._consumed e' = false.
Proof.
  induction reader as [|c reader IH]; intros fuel e Hsize Hpad Hcons Hfuel;
    (destruct fuel as [|fuel]; [cbn [length] in Hfuel; lia|]).
  - exists e. cbn [Sequential.drain_loop Sequential.discard_loop].
    unfold Sequential.next. rewrite Hcons, Hpad. cbn [num_sub num_le chunk_next].
    split; [reflexivity|]. split; reflexivity.
  - cbn [length] in Hfuel.
    destruct (IH fuel
                (Sequential.set_read e
                   (num_add (Sequential._read e) (Num (Z.of_nat (length c)))))
                Hsize Hpad Hcons ltac:(lia)) as (e' & Hdrain & Hdiscard & Hcons').
    exists e'. cbn [Sequential.drain_loop Sequential.discard_loop].
    unfold Sequential.next. rewrite Hcons, Hpad, Hsize.
    cbn [num_sub num_le num_lt chunk_next done value].
    rewrite Hdrain, Hdiscard.
    split; [reflexivity|]. split; [reflexivity | exact Hcons'].
Qed.

(** X11. When the size field of a header does not read as a number, the entry
    never ends: iterating over it hands over every chunk the source has
    left, whole, and then throws the TypeError of reading the length of
    [null]; [discard ()] and the next [extract ()] take the source to its end
    and throw the same. *)
Theorem unreadable_size_takes_the_source (block : Uint8Array)
    (reader0 : ChunkReader) :
  decodeOctal (subarray block 124 136) = NaN →
  ∃ e',
    Sequential.drain (sequential_entry block) reader0
    = Some (reader0, Throw (TypeError "Cannot read properties of null"), e', [])
    ∧ Sequential.discard (sequential_entry block) reader0
      = Some (Throw (TypeError "Cannot read properties of null"), e', [])
    ∧ Sequential.extract
        (Sequential.mkUntar (Some (sequential_entry block)) reader0)
      = Some (Throw (TypeError "Cannot read properties of null"),
              Sequential.mkUntar (Some e') []).
Proof.
  intros Hsize.
  assert (Sequential.size (sequential_entry block) = NaN) as Hsz
    by (unfold sequential_entry; rewrite sequential_size; exact Hsize).
  assert (Sequential.entrySize (sequential_entry block) = NaN) as Hpad.
  { change (Sequential.entrySize (sequential_entry block))
      with (ceil_record (Sequential.size (sequential_entry block))).
    rewrite Hsz. reflexivity. }
  destruct (unreadable_size_loops reader0 (S (length reader0))
              (sequential_entry block) Hsz Hpad eq_refl ltac:(lia))
    as (e' & Hdrain & Hdiscard & _).
  exists e'. split; [exact Hdrain|]. split; [exact Hdiscard|].
  unfold Sequential.extract, Sequential.pass_body, Sequential.discard.
  cbn [Sequential.entry Sequential.reader].
  change (Sequential._consumed (sequential_entry block)) with false.
  cbn [negb]. rewrite Hdiscard. reflexivity.
Qed.

Lemma unreadable_size_takes_the_source_witness :
  ∃ e',
    Sequential.drain (sequential_entry file_base256)
      [Archive.body 5 "x"; Archive.file_b]
    = Some ([Archive.body 5 "x"; Archive.file_b],
            Throw (TypeError "Cannot read properties of null"), e', [])
    ∧ Sequential.discard (sequential_entry file_base256)
        [Archive.body 5 "x"; Archive.file_b]
      = Some (Throw (TypeError "Cannot read properties of null"), e', [])
    ∧ Sequential.extract
        (Sequential.mkUntar (Some (sequential_entry file_base256))
           [Archive.body 5 "x"; Archive.file_b])
      = Some (Throw (TypeError "Cannot read properties of null"),
              Sequential.mkUntar (Some e') []).
Proof.
  apply (unreadable_size_takes_the_source file_base256
           [Archive.body 5 "x"; Archive.file_b]).
  vm_compute. reflexivity.
Defined.

(** ** Discarding once is enough *)

(** X12. Once [discard ()] has returned, the entry is consumed for good: another
    [discard ()], and the start of the next [extract ()], take nothing from
    the source, wherever it stands, and leave the entry as it is. *)
Theorem discard_settles (e e' : Sequential.TarEntry)
    (reader reader' again : ChunkReader) :
  Sequential.discard e reader = Some (Ok tt, e', reader') →
  Sequential.discard e' again = Some (Ok tt, e', again)
  ∧ Sequential.pass_body (Some e') again = Some (Ok tt, Some e', again).
Proof.
  unfold Sequential.discard. intros Hloop.
  pose proof (discard_loop_consumed _ _ _ _ _ Hloop) as Hcons.
  unfold Sequential.pass_body. cbn [Sequential.discard_loop].
  rewrite Hcons. split; reflexivity.
Qed.

Lemma discard_settles_witness :
  Sequential.discard
    (Sequential.set_consumed
       (Sequential.set_read (sequential_entry Archive.file_a) (Num 512)) true)
    [Archive.file_a]
  = Some (Ok tt,
          Sequential.set_consumed
            (Sequential.set_read (sequential_entry Archive.file_a) (Num 512)) true,
          [Archive.file_a])
  ∧ Sequential.pass_body
      (Some (Sequential.set_consumed
               (Sequential.set_read (sequential_entry Archive.file_a) (Num 512))
               true))
      [Archive.file_a]
    = Some (Ok tt,
            Some (Sequential.set_consumed
                    (Sequential.set_read (sequential_entry Archive.file_a)
                       (Num 512)) true),
            [Archive.file_a]).
Proof.
  apply (discard_settles (sequential_entry Archive.file_a) _
           [Archive.body 5 "x"; Archive.file_b] [Archive.file_b] [Archive.file_a]).
  vm_compute. reflexivity.
Defined.

(** ** Listing an archive from a chunked source *)

Lemma check_block_header (block : Uint8Array) :
  is_header (Sequential.check_block block) = true →
  Sequential.check_block block = Ok (Some (Sequential._parseHeader block)).
Proof.
  intros Hok. apply is_header_inv in Hok as [h Hok]. rewrite Hok.
  unfold Sequential.check_block in Hok.
  destruct (negb (num_seq _ _)) in Hok.
  - destruct (num_seq _ _) in Hok; discriminate Hok.
  - destruct (negb _) in Hok; [discriminate Hok|].
    injection Hok as <-. reflexivity.
Qed.

(** The start of [extract ()] passes the body of a file that was not read. *)
Lemma pass_whole_body (block : Uint8Array) (body : ChunkReader) :
  whole_file (block, body) →
  ∀ rest, ∃ entry',
    Sequential.pass_body (Some (sequential_entry block)) (body ++ rest)
    = Some (Ok tt, entry', rest).
Proof.
  intros (_ & s & Hs & Hsize & Hq & Hrecords) rest. cbn [fst snd] in *.
  assert (Forall (fun c => length c = 512%nat)
            (take (length body) (body ++ rest))) as Hrecords'
    by (rewrite take_app_length; exact Hrecords).
  destruct (discard_loop_records s (length body) (body ++ rest) Hs Hq Hrecords'
              (length body) ltac:(rewrite length_app; lia)
              0 (S (length (body ++ rest))) _ (body ++ rest)
              (fresh_taken block s (length body) (body ++ rest) Hsize Hq)
              ltac:(lia) ltac:(rewrite length_app; lia)) as [e' Hloop].
  rewrite drop_app_length in Hloop.
  unfold Sequential.pass_body, Sequential.discard.
  change (Sequential._consumed (sequential_entry block)) with false.
  cbn [negb]. unfold sequential_entry. rewrite Hloop.
  exists (Some e'). reflexivity.
Qed.

Lemma chunks_of_length (files : list (Uint8Array * ChunkReader)) :
  (length files ≤ length (chunks_of files))%nat.
Proof.
  unfold chunks_of. induction files as [|f files IH]; [reflexivity|].
  cbn [map concat length app]. rewrite length_app. lia.
Qed.

Lemma entries_loop_files (files : list (Uint8Array * ChunkReader))
    (tail : ChunkReader) :
  Forall whole_file files → archive_end tail →
  ∀ (fuel : nat) (entry0 : option Sequential.TarEntry) (body : ChunkReader),
    (∀ rest, ∃ entry',
        Sequential.pass_body entry0 (body ++ rest) = Some (Ok tt, entry', rest)) →
    (length files < fuel)%nat →
    ∃ u',
      Sequential.entries_loop fuel
        (Sequential.mkUntar entry0 (body ++ chunks_of files ++ tail))
      = Some (map (fun f => sequential_entry f.1) files, Ok tt, u')
      ∧ Sequential.reader u' = drop 1 tail.
Proof.
  intros Hfiles Hend.
  induction Hfiles as [|[block body'] files Hfile Hfiles IH];
    intros fuel entry0 body Hpass Hfuel;
    (destruct fuel as [|fuel]; [cbn [length] in Hfuel; lia|]).
  - change (chunks_of [] ++ tail) with tail.
    destruct (Hpass tail) as [entry' Hp].
    cbn [Sequential.entries_loop]. unfold Sequential.extract.
    cbn [Sequential.entry Sequential.reader]. rewrite Hp.
    unfold Sequential.extract_header, Sequential._getHeader.
    destruct tail as [|z rest]; cbn [chunk_next].
    + eexists. split; reflexivity.
    + cbn [archive_end] in Hend. rewrite Hend. eexists. split; reflexivity.
  - assert (chunks_of ((block, body') :: files) ++ tail
            = block :: body' ++ chunks_of files ++ tail) as ->.
    { unfold chunks_of. cbn [map concat fst snd app].
      rewrite <- app_assoc. reflexivity. }
    destruct (Hpass (block :: body' ++ chunks_of files ++ tail)) as [entry' Hp].
    cbn [Sequential.entries_loop]. unfold Sequential.extract.
    cbn [Sequential.entry Sequential.reader]. rewrite Hp.
    unfold Sequential.extract_header, Sequential._getHeader. cbn [chunk_next].
    rewrite (check_block_header block (proj1 Hfile)).
    cbn [length] in Hfuel.
    destruct (IH fuel (Some (sequential_entry block)) body'
                (pass_whole_body block body' Hfile) ltac:(lia))
      as (u' & Hloop & Hreader).
    exists u'. unfold sequential_entry in Hloop. rewrite Hloop.
    split; [reflexivity | exact Hreader].
Qed.

(** X13. Listing an archive with [for await (let entry of untar)], without
    reading the entries: when the chunked source gives, for each file, its
    header block and the 512-byte records of its body, and then ends or goes
    on with a block of the end of the archive, the loop yields the entry of
    every header, in order, and ends without an error, the source standing
    just after the block of the end. *)
Theorem entries_lists_the_files (files : list (Uint8Array * ChunkReader))
    (tail : ChunkReader) :
  Forall whole_file files →
  archive_end tail →
  ∃ u',
    Sequential.entries (Sequential.new_Untar (chunks_of files ++ tail))
    = Some (map (fun f => sequential_entry f.1) files, Ok tt, u')
    ∧ Sequential.reader u' = drop 1 tail.
Proof.
  intros Hfiles Hend. unfold Sequential.entries, Sequential.new_Untar.
  cbn [Sequential.reader].
  apply (entries_loop_files files tail Hfiles Hend _ None []).
  - intros rest. exists None. reflexivity.
  - rewrite length_app. pose proof (chunks_of_length files). lia.
Qed.

Lemma entries_lists_the_files_witness :
  ∃ u',
    Sequential.entries
      (Sequential.new_Untar
         (chunks_of [(Archive.file_a, [Archive.body 5 "x"]); (Archive.file_b, [])]
          ++ [Archive.zero_block; Archive.file_a]))
    = Some (map (fun f => sequential_entry f.1)
              [(Archive.file_a, [Archive.body 5 "x"]); (Archive.file_b, [])],
            Ok tt, u')
    ∧ Sequential.reader u' = drop 1 [Archive.zero_block; Archive.file_a].
Proof.
  apply (entries_lists_the_files
           [(Archive.file_a, [Archive.body 5 "x"]); (Archive.file_b, [])]
           [Archive.zero_block; Archive.file_a]).
  - constructor; [|constructor; [|constructor]].
    + split; [vm_compute; reflexivity|]. exists 5.
      split; [lia|]. split; [vm_compute; reflexivity|].
      split; [vm_compute; reflexivity|].
      constructor; [vm_compute; reflexivity | constructor].
    + split; [vm_compute; reflexivity|]. exists 0.
      split; [lia|]. split; [vm_compute; reflexivity|].
      split; [vm_compute; reflexivity | constructor].
  - vm_compute. reflexivity.
Defined.

(** ** Listing an archive from a source in memory *)

Lemma mem_read_block (pre block rest : Uint8Array) (most n : nat) :
  length block = n → (0 < n)%nat → (n ≤ most)%nat →
  mem_read (mkMemReader (pre ++ block ++ rest) (Z.of_nat (length pre)) most) n
  = (Some block,
     mkMemReader (pre ++ block ++ rest) (Z.of_nat (length pre) + Z.of_nat n) most).
Proof.
  intros Hlen Hn Hmost. unfold mem_read. cbn [pos data burst].
  rewrite Nat2Z.id, drop_app_length, Nat.min_l by exact Hmost.
  destruct (block ++ rest) as [|x l] eqn:Heq.
  - apply (f_equal length) in Heq. rewrite length_app in Heq.
    cbn [length] in Heq. lia.
  - rewrite <- Heq, (take_app_length' block rest n) by (symmetry; exact Hlen).
    rewrite Hlen. reflexivity.
Qed.

Lemma mem_read_end (pre : Uint8Array) (most n : nat) :
  mem_read (mkMemReader pre (Z.of_nat (length pre)) most) n
  = (None, mkMemReader pre (Z.of_nat (length pre)) most).
Proof.
  unfold mem_read. cbn [pos data burst]. rewrite Nat2Z.id, drop_all. reflexivity.
Qed.

(** [_getHeader] on a source that stands before a whole block. *)
Lemma getHeader_block (chunk pre block rest : Uint8Array) (most : nat) :
  length chunk = 512%nat → length block = 512%nat → (512 ≤ most)%nat →
  Seekable._getHeader chunk
    (mkMemReader (pre ++ block ++ rest) (Z.of_nat (length pre)) most)
  = (Seekable.check_block block, block,
     mkMemReader (pre ++ block ++ rest)
       (Z.of_nat (length pre) + Z.of_nat 512) most).
Proof.
  intros Hchunk Hblock Hmost. unfold Seekable._getHeader.
  cbn [rs_read MemReader_ReadSeeker].
  rewrite Hchunk, (mem_read_block pre block rest most 512 Hblock ltac:(lia) Hmost).
  cbn [stored]. unfold set_at0. rewrite Hblock, drop_ge, app_nil_r by lia.
  reflexivity.
Qed.

Lemma length_concat_records (body : ChunkReader) :
  Forall (fun c => length c = 512%nat) body →
  length (concat body) = (512 * length body)%nat.
Proof.
  induction 1 as [|c body Hc Hbody IH]; [reflexivity|].
  cbn [concat length]. rewrite length_app, IH, Hc. lia.
Qed.

(** [discard] on a fresh entry moves the source over the records of the
    body. *)
Lemma discard_whole_body (block : Uint8Array) (body : ChunkReader) (r : MemReader) :
  whole_file (block, body) →
  Seekable.discard (seekable_entry block) r
  = mkMemReader (data r) (pos r + Z.of_nat (length (concat body))) (burst r).
Proof.
  intros (_ & s & Hs & Hsize & Hq & Hrecords). cbn [fst snd] in *.
  rewrite (length_concat_records body Hrecords).
  assert (Seekable.size (seekable_entry block) = Num s) as Hsz
    by (unfold seekable_entry; rewrite seekable_size; exact Hsize).
  unfold Seekable.discard.
  change (Seekable.entrySize (seekable_entry block))
    with (ceil_record (Seekable.size (seekable_entry block))).
  change (Seekable._read (seekable_entry block)) with (Num 0).
  rewrite Hsz. cbn [ceil_record num_sub num_le]. unfold RECORD_SIZE.
  destruct (Z.leb_spec (ceil_div s 512 * 512 - 0) 0) as [Hle|Hgt].
  - destruct r as [d p b]. cbn [data pos burst]. f_equal. lia.
  - cbn [rs_seek MemReader_ReadSeeker mem_seek].
    change (SEEK_MODE_CURRENT =? SEEK_MODE_CURRENT) with true. cbn iota.
    f_equal. lia.
Qed.

Lemma seekable_check_block_header (block : Uint8Array) :
  is_header (Sequential.check_block block) = true →
  Seekable.check_block block = Ok (Some (Seekable._parseHeader block)).
Proof.
  intros Hok. destruct (check_block_cases block) as (-> & _).
  rewrite (check_block_header block Hok). reflexivity.
Qed.

Lemma chunks_of_cons (block : Uint8Array) (body : ChunkReader)
    (files : list (Uint8Array * ChunkReader)) (tail : Uint8Array) :
  concat (chunks_of ((block, body) :: files)) ++ tail
  = block ++ concat body ++ concat (chunks_of files) ++ tail.
Proof.
  unfold chunks_of. cbn [map concat fst snd]. rewrite concat_app.
  cbn [concat]. rewrite <- !app_assoc. reflexivity.
Qed.

Lemma seekable_entries_files (most : nat) (tail : Uint8Array)
    (files : list (Uint8Array * ChunkReader)) :
  (512 ≤ most)%nat →
  archive_end_bytes tail →
  Forall whole_file files →
  Forall (fun f => length f.1 = 512%nat) files →
  ∀ (fuel : nat) (entry0 : option Seekable.TarEntry) (r : MemReader)
    (chunk pre : Uint8Array),
    length chunk = 512%nat →
    match entry0 with
    | Some e => Seekable.discard e r
    | None => r
    end = mkMemReader (pre ++ concat (chunks_of files) ++ tail)
            (Z.of_nat (length pre)) most →
    (length files < fuel)%nat →
    ∃ u',
      Seekable.entries_loop fuel (Seekable.mkUntar entry0 r chunk)
      = Some (map (fun f => seekable_entry f.1) files, Ok tt, u')
      ∧ rest_of (Seekable._reader u') = drop 512 tail.
Proof.
  intros Hmost Hend Hfiles Hblocks. revert Hblocks.
  induction Hfiles as [|[block body] files Hfile Hfiles IH];
    intros Hblocks fuel entry0 r chunk pre Hchunk Hr0 Hfuel;
    (destruct fuel as [|fuel]; [cbn [length] in Hfuel; lia|]).
  - change (concat (chunks_of []) ++ tail) with tail in Hr0.
    cbn [Seekable.entries_loop]. unfold Seekable.getIterator_next, Seekable.extract.
    cbn [Seekable.entry Seekable._reader Seekable._chunk]. rewrite Hr0.
    destruct Hend as [-> | [Hlen Hended]].
    + rewrite app_nil_r. unfold Seekable._getHeader.
      cbn [rs_read MemReader_ReadSeeker]. rewrite mem_read_end.
      eexists. split; [reflexivity|].
      cbn [Seekable._reader]. unfold rest_of. cbn [pos data].
      rewrite Nat2Z.id, drop_all, drop_nil. reflexivity.
    + assert (pre ++ tail = pre ++ take 512 tail ++ drop 512 tail) as ->
        by (rewrite take_drop; reflexivity).
      rewrite (getHeader_block chunk pre (take 512 tail) (drop 512 tail) most
                 Hchunk ltac:(rewrite length_take; lia) Hmost).
      unfold ended in Hended. rewrite Hended.
      eexists. split; [reflexivity|].
      cbn [Seekable._reader]. unfold rest_of. cbn [pos data].
      replace (Z.to_nat (Z.of_nat (length pre) + Z.of_nat 512))
        with (length pre + 512)%nat by lia.
      rewrite <- drop_drop, drop_app_length.
      rewrite (drop_app_length' (take 512 tail)) by (rewrite length_take; lia).
      reflexivity.
  - apply Forall_cons in Hblocks as [Hblock Hblocks]. cbn [fst] in Hblock.
    rewrite chunks_of_cons in Hr0.
    cbn [Seekable.entries_loop]. unfold Seekable.getIterator_next, Seekable.extract.
    cbn [Seekable.entry Seekable._reader Seekable._chunk]. rewrite Hr0.
    rewrite (getHeader_block chunk pre block _ most Hchunk Hblock Hmost).
    rewrite (seekable_check_block_header block (proj1 Hfile)).
    cbn [Seekable.done Seekable.value].
    fold (seekable_entry block).
    cbn [length] in Hfuel.
    destruct (IH Hblocks fuel (Some (seekable_entry block))
                (mkMemReader
                   (pre ++ block ++ concat body ++ concat (chunks_of files) ++ tail)
                   (Z.of_nat (length pre) + Z.of_nat 512) most)
                block (pre ++ block ++ concat body) Hblock)
      as (u' & Hloop & Hrest).
    + rewrite (discard_whole_body block body _ Hfile). cbn [data pos burst].
      f_equal.
      * rewrite <- !app_assoc. reflexivity.
      * rewrite !length_app, Hblock. lia.
    + lia.
    + exists u'. rewrite Hloop. split; [reflexivity | exact Hrest].
Qed.

(** X14. Listing an archive with [for await (let entry of untar)] from a source
    in memory that hands over at least 512 bytes at once: when the source
    holds, for each file, its header block of 512 bytes and the records of
    its body, and then ends or goes on with a block of the end of the
    archive, the loop yields the entry of every header, in order, and ends
    without an error, the cursor standing just after the block of the end. *)
Theorem seekable_lists_the_files (files : list (Uint8Array * ChunkReader))
    (tail : Uint8Array) (most : nat) :
  Forall whole_file files →
  Forall (fun f => length f.1 = 512%nat) files →
  archive_end_bytes tail →
  (512 ≤ most)%nat →
  ∃ u',
    Seekable.entries_loop (S (length files))
      (Seekable.new_Untar (mkMemReader (concat (chunks_of files) ++ tail) 0 most))
    = Some (map (fun f => seekable_entry f.1) files, Ok tt, u')
    ∧ rest_of (Seekable._reader u') = drop 512 tail.
Proof.
  intros Hfiles Hblocks Hend Hmost. unfold Seekable.new_Untar.
  apply (seekable_entries_files most tail files Hmost Hend Hfiles Hblocks
           (S (length files)) None _ (new_Uint8Array 512) []).
  - unfold new_Uint8Array. apply length_replicate.
  - reflexivity.
  - lia.
Qed.

Lemma seekable_lists_the_files_witness :
  ∃ u',
    Seekable.entries_loop
      (S (length [(Archive.file_a, [Archive.body 5 "x"]); (Archive.file_b, [])]))
      (Seekable.new_Untar
         (mkMemReader
            (concat (chunks_of [(Archive.file_a, [Archive.body 5 "x"]);
                                (Archive.file_b, [])])
             ++ Archive.zero_block ++ Archive.zero_block) 0 4096))
    = Some (map (fun f => seekable_entry f.1)
              [(Archive.file_a, [Archive.body 5 "x"]); (Archive.file_b, [])],
            Ok tt, u')
    ∧ rest_of (Seekable._reader u')
      = drop 512 (Archive.zero_block ++ Archive.zero_block).
Proof.
  apply (seekable_lists_the_files
           [(Archive.file_a, [Archive.body 5 "x"]); (Archive.file_b, [])]
           (Archive.zero_block ++ Archive.zero_block) 4096).
  - constructor; [|constructor; [|constructor]].
    + split; [vm_compute; reflexivity|]. exists 5.
      split; [lia|]. split; [vm_compute; reflexivity|].
      split; [vm_compute; reflexivity|].
      constructor; [vm_compute; reflexivity | constructor].
    + split; [vm_compute; reflexivity|]. exists 0.
      split; [lia|]. split; [vm_compute; reflexivity|].
      split; [vm_compute; reflexivity | constructor].
  - constructor; [vm_compute; reflexivity|].
    constructor; [vm_compute; reflexivity | constructor].
  - right. split; [vm_compute; lia|]. vm_compute. reflexivity.
  - lia.
Defined.

(** ** A source in memory cut short *)

(** X15. When the source in memory ends inside the body of the current entry, or
    right after it, the next [extract ()] resolves to [null] like at the end
    of an archive: the seek of [discard] goes to or beyond the end of the
    source, and the read of the header finds nothing.  No error tells the
    caller that the archive was cut. *)
Theorem seekable_cut_short_is_silent (e : Seekable.TarEntry) (r : MemReader)
    (chunk : Uint8Array) (padded d : Z) :
  Seekable.entrySize e = Num padded →
  Seekable._read e = Num d →
  0 ≤ pos r →
  Z.of_nat (length (data r)) ≤ pos r + (padded - d) →
  Seekable.extract (Seekable.mkUntar (Some e) r chunk)
  = (Ok None, Seekable.mkUntar (Some e) (Seekable.discard e r) chunk).
Proof.
  intros Hpad Hread Hpos Hshort.
  unfold Seekable.extract. cbn [Seekable.entry Seekable._reader Seekable._chunk].
  assert (rest_of (Seekable.discard e r) = []) as Hrest.
  { unfold Seekable.discard. rewrite Hpad, Hread. cbn [num_sub num_le].
    destruct (Z.leb_spec (padded - d) 0) as [Hle|Hgt].
    - unfold rest_of. apply drop_ge. lia.
    - cbn [rs_seek MemReader_ReadSeeker mem_seek].
      change (SEEK_MODE_CURRENT =? SEEK_MODE_CURRENT) with true. cbn iota.
      unfold rest_of. cbn [pos data]. apply drop_ge. lia. }
  unfold Seekable._getHeader. cbn [rs_read MemReader_ReadSeeker].
  unfold mem_read. fold (rest_of (Seekable.discard e r)). rewrite Hrest.
  reflexivity.
Qed.

Lemma seekable_cut_short_is_silent_witness :
  Seekable.extract (Seekable.mkUntar (Some entry_a) cut_in_body Archive.file_a)
  = (Ok None,
     Seekable.mkUntar (Some entry_a) (Seekable.discard entry_a cut_in_body)
       Archive.file_a).
Proof.
  apply (seekable_cut_short_is_silent entry_a cut_in_body Archive.file_a 512 0).
  - vm_compute. reflexivity.
  - reflexivity.
  - vm_compute. discriminate.
  - vm_compute. discriminate.
Defined.

(** ** Reading the body from a source in memory *)

(** X16. While something is left of the declared size, [read (p)] on a source in
    memory that holds the bytes and hands them over at once copies the next
    bytes of the body to the start of [p], as many as fit in [p] and no more
    than are left of the declared size; it resolves to their number, leaves
    the rest of [p] as it was, and counts them in [_read]; the cursor stands
    after them. *)
Theorem read_copies_the_body (e : Seekable.TarEntry) (p : Uint8Array)
    (r : MemReader) (remaining : Z) (k : nat) :
  num_sub (Seekable.size e) (Seekable._read e) = Num remaining →
  0 < remaining →
  k = Nat.min (length p) (Z.to_nat remaining) →
  (k ≤ burst r)%nat →
  (k ≤ length (rest_of r))%nat →
  rest_of r ≠ [] →
  Seekable.read e p r
  = (Some k,
     take k (rest_of r) ++ drop k p,
     Seekable.set_read e (num_add (Seekable._read e) (Num (Z.of_nat k))),
     mkMemReader (data r) (pos r + Z.of_nat k) (burst r)).
Proof.
  intros Hrem Hpos Hk Hburst Hleft Hsome.
  assert (length (take k (rest_of r)) = k) as Hbs by (rewrite length_take; lia).
  destruct (Z.le_gt_cases (Z.of_nat (length p)) remaining) as [Hfit|Hover].
  - assert (k = length p) as Hkp by lia.
    rewrite (read_within e p r remaining Hrem Hpos Hfit).
    cbn [rs_read MemReader_ReadSeeker]. unfold mem_read. fold (rest_of r).
    destruct (rest_of r) as [|x rest] eqn:Hrest; [contradiction|].
    rewrite <- Hkp, Nat.min_l by exact Hburst.
    cbn [fst snd count fmap option_fmap option_map stored]. rewrite Hbs.
    unfold set_at0. rewrite Hbs. reflexivity.
  - assert (k = Z.to_nat remaining) as Hkr by lia.
    rewrite (read_over e p r remaining Hrem Hpos Hover).
    cbn [rs_read MemReader_ReadSeeker]. unfold mem_read. fold (rest_of r).
    destruct (rest_of r) as [|x rest] eqn:Hrest; [contradiction|].
    rewrite <- Hkr, Nat.min_l by exact Hburst.
    cbn [fst snd count fmap option_fmap option_map stored]. rewrite Hbs.
    unfold set_at0, new_Uint8Array. rewrite Hbs, drop_replicate, Nat.sub_diag.
    cbn [replicate]. rewrite app_nil_r, Hbs.
    replace (Z.of_nat k) with remaining by lia. reflexivity.
Qed.

Lemma read_copies_the_body_witness :
  Seekable.read entry_a (new_Uint8Array 8) (after_header 512)
  = (Some 5%nat,
     take 5 (rest_of (after_header 512)) ++ drop 5 (new_Uint8Array 8),
     Seekable.set_read entry_a
       (num_add (Seekable._read entry_a) (Num (Z.of_nat 5))),
     mkMemReader (data (after_header 512))
       (pos (after_header 512) + Z.of_nat 5) (burst (after_header 512))).
Proof.
  apply (read_copies_the_body entry_a (new_Uint8Array 8) (after_header 512) 5 5).
  - vm_compute. reflexivity.
  - lia.
  - vm_compute. reflexivity.
  - vm_compute. lia.
  - vm_compute. lia.
  - vm_compute. discriminate.
Defined.

(** ** The checks of the TextDecoder revision *)

Lemma prefix_before_nul (p : string) :
  Forall (fun c => c ≠ "000"%char) (list_ascii_of_string p) →
  ∀ (a rest : string),
    String.prefix p (a +:+ String "000" rest) = String.prefix p a.
Proof.
  induction p as [|c p IH]; intros Hp a rest; [destruct a; reflexivity|].
  cbn [list_ascii_of_string] in Hp. apply Forall_cons in Hp as [Hc Hp].
  destruct a as [|x a].
  - change ("" +:+ String "000" rest) with (String "000" rest).
    cbn [String.prefix]. destruct (ascii_dec c "000"); [contradiction | reflexivity].
  - change (String x a +:+ String "000" rest)
      with (String x (a +:+ String "000" rest)).
    cbn [String.prefix]. destruct (ascii_dec c x); [apply IH, Hp | reflexivity].
Qed.

(** X17. On a block whose checksum and magic fields hold bytes below 128, the
    TextDecoder revision, which decodes the whole fields, decides like the
    first revision, which decodes them up to the first zero byte: the same
    blocks are headers, ends of the archive and checksum errors.  Only the
    text in the error of an unsupported format differs: the whole magic
    field in place of its text before the first zero byte. *)
Theorem text_decoder_check_block (block : Uint8Array) :
  Forall (fun b => byte_val b < 128) (subarray block 148 156) →
  Forall (fun b => byte_val b < 128) (subarray block 257 265) →
  ∃ r2,
    SequentialTD.check_block block = Some r2
    ∧ (r2 = Sequential.check_block block
       ∨ (r2 = Throw (UnsupportedFormatError
                        (string_of_list_byte (subarray block 257 265)))
          ∧ Sequential.check_block block
            = Throw (UnsupportedFormatError
                       (decodeString (subarray block 257 265))))).
Proof.
  intros Hsum Hmagic. unfold SequentialTD.check_block, Sequential.check_block.
  change (Sequential.prop (Sequential._parseHeader block) "checksum")
    with (subarray block 148 156).
  change (Sequential.prop (Sequential._parseHeader block) "ustar")
    with (subarray block 257 265).
  rewrite (decoder_decode_ascii _ Hsum), (decoder_decode_ascii _ Hmagic).
  cbn [mbind option_bind]. eexists. split; [reflexivity|].
  rewrite parseInt_of_field, !indexOf_prefix.
  destruct (text_of_field (subarray block 257 265)) as [-> | [rest ->]];
    [left; reflexivity|].
  rewrite prefix_before_nul by (repeat constructor; discriminate).
  destruct (negb (num_seq _ _)); [left; reflexivity|].
  destruct (String.prefix "ustar" (decodeString (subarray block 257 265)));
    cbn [negb]; [left; reflexivity | right; split; reflexivity].
Qed.

Lemma text_decoder_check_block_witness :
  ∃ r2,
    SequentialTD.check_block Archive.file_a = Some r2
    ∧ (r2 = Sequential.check_block Archive.file_a
       ∨ (r2 = Throw (UnsupportedFormatError
                        (string_of_list_byte (subarray Archive.file_a 257 265)))
          ∧ Sequential.check_block Archive.file_a
            = Throw (UnsupportedFormatError
                       (decodeString (subarray Archive.file_a 257 265))))).
Proof.
  apply (text_decoder_check_block Archive.file_a).
  - vm_compute. repeat constructor.
  - vm_compute. repeat constructor.
Defined.
